(** * GskSlCompiler: the front-end driver of the GSK shading-language compiler

    A shallow embedding of [gsk/gskslcompiler.c]: the table of macro
    definitions ([add_define], [remove_define], [copy_defines]), include
    resolution and the compile pipeline.

    Conventions of the embedding.
    - A [GError **error] out-parameter is a component of the function's
      result: [None] is "no error set", [Some e] is the error the
      function sets (and the caller sees when it passes a location).
    - C strings are [string]s (a [const char *] holds no NUL byte).
    - Pointers the functions require to be valid ([g_return_val_if_fail]
      on the compiler, [name], [file], [bytes]) are plain values, not
      options: a call that breaks the contract is not a call of the
      model.  [definition], which may be [NULL], is an option.
    - Reference-counted [GskSlDefine] objects live in an explicit heap
      ([gmap addr GskSlDefine]); hash tables hold addresses, so sharing
      between a table and its copies is visible.
    - The tokenizer, the identifier syntax, the preprocessor, the program
      parser and GIO's files are collaborators declared in headers; they
      are interfaces here (type classes), and every theorem holds for all
      their implementations.
    - [while (TRUE)] loops take a fuel argument counting calls of
      [gsk_sl_tokenizer_read_token]; [None] means the fuel ran out. *)

From Stdlib Require Import Ascii String DecimalString.
From stdpp Require Import gmap strings list fin_maps.

#[local] Set Warnings "-clear-no-such-hyp".

(** ** GLib: strings, printf-style formatting, GError *)

Module GLib.

(** The double-quote character (ASCII 34), escaped in the C sources. *)
Definition dquote : string := String (Ascii.ascii_of_nat 34) EmptyString.

(** [size_t] / [gsize] on an LP64 platform: 64 bits, arithmetic wraps. *)
Definition gsize_bits : N := 64.
Definition gsize_modulus : N := 2 ^ gsize_bits.
Definition gsize_add (a b : N) : N := ((a + b) mod gsize_modulus)%N.

(** Arguments of a variadic printf call. *)
Inductive printf_arg :=
  | ArgString (s : string)   (* consumed by %s *)
  | ArgSize (n : N).         (* consumed by %zu *)

(** Conversion specifications the compiler's format strings use. *)
Inductive directive :=
  | Lit (c : ascii)
  | ConvS                    (* %s *)
  | ConvZu (width : nat).    (* %<width>zu, width 0 when absent *)

Definition is_digit (c : ascii) : bool :=
  let n := nat_of_ascii c in (48 <=? n) && (n <=? 57).

Definition digit_value (c : ascii) : nat := nat_of_ascii c - 48.

(** Reads the decimal field width that follows [%]. *)
Fixpoint parse_width (acc : nat) (s : string) : nat * string :=
  match s with
  | String c s' =>
      if is_digit c then parse_width (10 * acc + digit_value c) s'
      else (acc, s)
  | EmptyString => (acc, s)
  end.

(** Splits a format string into directives.  [fuel] bounds the number of
    directives; [String.length fmt] always suffices. *)
Fixpoint parse_format (fuel : nat) (fmt : string) : list directive :=
  match fuel with
  | O => []
  | S fuel' =>
      match fmt with
      | EmptyString => []
      | String "%" rest =>
          match parse_width 0 rest with
          | (w, String "s" rest') =>
              match w with
              | O => ConvS :: parse_format fuel' rest'
              | _ => Lit "%" :: parse_format fuel' rest
              end
          | (w, String "z" (String "u" rest')) =>
              ConvZu w :: parse_format fuel' rest'
          | _ => Lit "%" :: parse_format fuel' rest
          end
      | String c rest => Lit c :: parse_format fuel' rest
      end
  end.

(** Decimal digits of an unsigned number, no padding ([%zu]). *)
Definition decimal (n : N) : string := NilZero.string_of_uint (N.to_uint n).

Fixpoint spaces (n : nat) : string :=
  match n with
  | O => EmptyString
  | S n' => String " " (spaces n')
  end.

(** printf pads a field on the left with spaces up to the width and
    never truncates it. *)
Definition pad_field (width : nat) (s : string) : string :=
  spaces (width - String.length s) +:+ s.

Fixpoint format_directives (ds : list directive) (args : list printf_arg)
  : string :=
  match ds with
  | [] => EmptyString
  | Lit c :: ds' => String c (format_directives ds' args)
  | ConvS :: ds' =>
      match args with
      | ArgString s :: args' => s +:+ format_directives ds' args'
      | _ => format_directives ds' (tail args)
      end
  | ConvZu w :: ds' =>
      match args with
      | ArgSize n :: args' =>
          pad_field w (decimal n) +:+ format_directives ds' args'
      | _ => format_directives ds' (tail args)
      end
  end.

(** [g_strdup_vprintf (format, args)]. *)
Definition g_strdup_printf (format : string) (args : list printf_arg)
  : string :=
  format_directives (parse_format (String.length format) format) args.

(** A [GQuark] is an interned string: two quarks are equal exactly when
    their strings are. *)
Definition GQuark : Type := string.

Record GError := mkGError {
  domain : GQuark;
  code : Z;
  message : string
}.

#[export] Instance GError_eq_dec : EqDecision GError.
Proof. solve_decision. Defined.

(** [g_set_error (error, domain, code, format, ...)] on an unset error. *)
Definition g_set_error (domain : GQuark) (code : Z) (format : string)
  (args : list printf_arg) : option GError :=
  Some (mkGError domain code (g_strdup_printf format args)).

(** [g_error_copy (error)]. *)
Definition g_error_copy (e : GError) : GError :=
  mkGError (domain e) (code e) (message e).

(** [g_prefix_error (&err, format, ...)]: the formatted text goes in
    front of the message; nothing happens when no error is set. *)
Definition g_prefix_error (err : option GError) (format : string)
  (args : list printf_arg) : option GError :=
  match err with
  | Some e =>
      Some (mkGError (domain e) (code e)
              (g_strdup_printf format args +:+ message e))
  | None => None
  end.

(** [g_propagate_error (dest, src)]: [src] is moved to the caller. *)
Definition g_propagate_error (src : GError) : option GError := Some src.

(** [G_FILE_ERROR] and the two members of [GFileError] used here
    (positions 0 and 24 of the enumeration in [gfileutils.h]). *)
Definition G_FILE_ERROR : GQuark := "g-file-error-quark".
Definition G_FILE_ERROR_EXIST : Z := 0.
Definition G_FILE_ERROR_FAILED : Z := 24.

End GLib.
Import GLib.

(** ** Collaborators declared in the private headers *)

(** [GBytes]: an immutable byte buffer. *)
Definition GBytes : Type := string.

(** [g_bytes_new_static (data, strlen (data))]. *)
Definition g_bytes_new_static (data : string) : GBytes := data.

(** [GFile]: a handle naming a location; identified by its URI. *)
Definition GFile : Type := string.

(** GIO's view of the file system ([gio/gfile.h]). *)
Class FileSystem := {
  g_file_get_parent : GFile → GFile;
  g_file_resolve_relative_path : GFile → string → GFile;
  g_file_load_contents : GFile → GBytes + GError
}.

(** Modelled from the spec: [GskCodeSource] ([gskcodesource.c] is not part
    of the sources).  A code source is either file-backed or an in-memory
    byte buffer with a display name. *)
Inductive GskCodeSource :=
  | SourceFile (file : GFile)
  | SourceBytes (name : string) (bytes : GBytes).

Definition gsk_code_source_new_for_file (file : GFile) : GskCodeSource :=
  SourceFile file.

Definition gsk_code_source_new_for_bytes (name : string) (bytes : GBytes)
  : GskCodeSource :=
  SourceBytes name bytes.

(** [NULL] when the source is not file-backed. *)
Definition gsk_code_source_get_file (source : GskCodeSource) : option GFile :=
  match source with
  | SourceFile file => Some file
  | SourceBytes _ _ => None
  end.

(** The content, or [NULL] with the error set. *)
Definition gsk_code_source_load `{FileSystem} (source : GskCodeSource)
  : GBytes + GError :=
  match source with
  | SourceFile file => g_file_load_contents file
  | SourceBytes _ bytes => inl bytes
  end.

(** The two fields of [GskCodeLocation] the compiler reads, both [gsize]:
    the count of completed lines and the byte offset in the current line. *)
Record GskCodeLocation := mkLocation {
  lines : N;
  line_bytes : N
}.

(** One call of the tokenizer's error callback
    [(tokenizer, fatal, location, token, error, user_data)]; the callback
    of this file reads [fatal], [location] and [error] only. *)
Record Diagnostic := mkDiagnostic {
  diag_fatal : bool;
  diag_location : GskCodeLocation;
  diag_error : GError
}.

(** The tokenizer ([gsksltokenizerprivate.h]).  Reading a token yields the
    diagnostics the tokenizer reports through its callback during the
    call, in order, the token, and the advanced tokenizer. *)
Class SlLexer := {
  GskSlToken : Type;
  GskSlTokenizer : Type;
  gsk_sl_string_is_valid_identifier : string → bool;
  gsk_sl_token_is_skipped : GskSlToken → bool;
  (* gsk_sl_token_is (token, GSK_SL_TOKEN_EOF) *)
  gsk_sl_token_is_eof : GskSlToken → bool;
  gsk_sl_tokenizer_new : GskCodeSource → GskSlTokenizer;
  gsk_sl_tokenizer_get_location : GskSlTokenizer → GskCodeLocation;
  gsk_sl_tokenizer_read_token :
    GskSlTokenizer → list Diagnostic * GskSlToken * GskSlTokenizer
}.

(** ** Macro definitions and the heap they live in *)

Definition addr : Type := positive.

Section Defines.
Context `{SlLexer}.

(** Modelled from the spec: [GskSlDefine] ([gsksldefine.c] is not part of
    the sources): a named, reference-counted object holding the ordered
    sequence of (location, token) pairs of the macro body. *)
Record GskSlDefine := mkDefine {
  ref_count : nat;
  define_name : string;
  define_source_file : option GFile;
  define_tokens : list (GskCodeLocation * GskSlToken)
}.

Definition with_ref_count (d : GskSlDefine) (n : nat) : GskSlDefine :=
  mkDefine n (define_name d) (define_source_file d) (define_tokens d).

Definition with_token (loc : GskCodeLocation) (t : GskSlToken)
  (d : GskSlDefine) : GskSlDefine :=
  mkDefine (ref_count d) (define_name d) (define_source_file d)
    (define_tokens d ++ [(loc, t)]).

(** Modelled from the spec: a define is created with one reference and an
    empty body, at an address not in use. *)
Definition gsk_sl_define_new (h : gmap addr GskSlDefine) (name : string)
  (source_file : option GFile) : gmap addr GskSlDefine * addr :=
  let a := fresh (dom h) in
  (<[a := mkDefine 1 name source_file []]> h, a).

(** Modelled from the spec: shared ownership by reference counting. *)
Definition gsk_sl_define_ref (h : gmap addr GskSlDefine) (a : addr)
  : gmap addr GskSlDefine :=
  alter (λ d, with_ref_count d (S (ref_count d))) a h.

(** Modelled from the spec: the define is destroyed when its last
    reference is dropped. *)
Definition gsk_sl_define_unref (h : gmap addr GskSlDefine) (a : addr)
  : gmap addr GskSlDefine :=
  match h !! a with
  | Some d =>
      if decide (ref_count d ≤ 1) then delete a h
      else <[a := with_ref_count d (ref_count d - 1)]> h
  | None => h
  end.

(** Modelled from the spec: a pointer to the name the define owns. *)
Definition gsk_sl_define_get_name (h : gmap addr GskSlDefine) (a : addr)
  : string :=
  match h !! a with
  | Some d => define_name d
  | None => EmptyString
  end.

(** Modelled from the spec: appends [(location, token)] to the body. *)
Definition gsk_sl_define_add_token (h : gmap addr GskSlDefine) (a : addr)
  (loc : GskCodeLocation) (t : GskSlToken) : gmap addr GskSlDefine :=
  alter (with_token loc t) a h.

(** ** GHashTable with [g_str_hash], [g_str_equal], no key destructor and
    [gsk_sl_define_unref] as value destructor

    Keys are compared by content, so a table is a map from the key's
    characters to the stored pair of pointers: [entry_key] is the define
    whose name string the stored key pointer designates, [entry_value]
    the stored define. *)
Record GHashEntry := mkEntry {
  entry_key : addr;
  entry_value : addr
}.

#[export] Instance GHashEntry_eq_dec : EqDecision GHashEntry.
Proof. solve_decision. Defined.

(** [g_hash_table_replace (table, key, value)]: the new key and value
    take the place of an equal key's; the old value is destroyed. *)
Definition g_hash_table_replace (h : gmap addr GskSlDefine)
  (table : gmap string GHashEntry) (key_chars : string) (key : addr)
  (value : addr) : gmap addr GskSlDefine * gmap string GHashEntry :=
  match table !! key_chars with
  | Some old =>
      (gsk_sl_define_unref h (entry_value old),
       <[key_chars := mkEntry key value]> table)
  | None => (h, <[key_chars := mkEntry key value]> table)
  end.

(** [g_hash_table_remove (table, key)]. *)
Definition g_hash_table_remove (h : gmap addr GskSlDefine)
  (table : gmap string GHashEntry) (key_chars : string)
  : gmap addr GskSlDefine * gmap string GHashEntry :=
  match table !! key_chars with
  | Some old => (gsk_sl_define_unref h (entry_value old), delete key_chars table)
  | None => (h, table)
  end.

(** ** The compiler *)

(** [struct _GskSlCompiler]. *)
Record GskSlCompiler := mkCompiler {
  defines : gmap string GHashEntry
}.

(** [gsk_sl_compiler_init]: an empty table. *)
Definition gsk_sl_compiler_new : GskSlCompiler := mkCompiler ∅.

(** [G_DEFINE_QUARK]: the two error domains of the compiler. *)
Definition gsk_sl_compiler_error_quark : GQuark :=
  "gsk-sl-compiler-error-quark".
Definition gsk_sl_compiler_warning_quark : GQuark :=
  "gsk-sl-compiler-warning-quark".

(** The format strings of this file. *)
Definition location_format : string := "%3zu:%2zu: ".
Definition invalid_identifier_format : string :=
  "Define name " +:+ dquote +:+ "%s" +:+ dquote +:+ " is not a valid identifier".
Definition search_path_format : string :=
  "Could not resolve " +:+ dquote +:+ "%s" +:+ dquote +:+ " in search path.".

(** [gsk_sl_compiler_add_define_error_func]; [real_error] is the
    [GError *] behind [user_data]. *)
Definition gsk_sl_compiler_add_define_error_func
  (real_error : option GError) (d : Diagnostic) : option GError :=
  if negb (diag_fatal d) then real_error
  else
    match real_error with
    | Some _ => real_error
    | None =>
        g_prefix_error (Some (g_error_copy (diag_error d))) location_format
          [ArgSize (gsize_add (lines (diag_location d)) 1);
           ArgSize (line_bytes (diag_location d))]
    end.

(** The token loop of [gsk_sl_compiler_add_define].  The inner
    [do ... while (skipped)] and the outer [while (TRUE)] are one
    recursion: each turn saves the location, reads one token, then either
    goes on reading (skipped), stops (EOF) or stores the token. *)
Fixpoint add_define_loop (fuel : nat) (h : gmap addr GskSlDefine)
  (define : addr) (tokenizer : GskSlTokenizer) (real_error : option GError)
  : option (gmap addr GskSlDefine * GskSlTokenizer * option GError) :=
  match fuel with
  | O => None
  | S fuel' =>
      let location := gsk_sl_tokenizer_get_location tokenizer in
      let '(diags, token, tokenizer') :=
        gsk_sl_tokenizer_read_token tokenizer in
      let real_error' :=
        foldl gsk_sl_compiler_add_define_error_func real_error diags in
      if gsk_sl_token_is_skipped token then
        add_define_loop fuel' h define tokenizer' real_error'
      else if gsk_sl_token_is_eof token then
        Some (h, tokenizer', real_error')
      else
        add_define_loop fuel'
          (gsk_sl_define_add_token h define location token)
          define tokenizer' real_error'
  end.

(** The result of [gsk_sl_compiler_add_define]: the heap and the compiler
    after the call, the returned [gboolean] and the error set. *)
Record AddDefineResult := mkAddDefineResult {
  res_heap : gmap addr GskSlDefine;
  res_compiler : GskSlCompiler;
  res_ok : bool;
  res_error : option GError
}.

(** [gsk_sl_compiler_add_define].  [None] only when [fuel] does not
    cover the reads of the token loop. *)
Definition gsk_sl_compiler_add_define (fuel : nat)
  (h : gmap addr GskSlDefine) (compiler : GskSlCompiler) (name : string)
  (definition : option string) : option AddDefineResult :=
  if negb (gsk_sl_string_is_valid_identifier name) then
    Some (mkAddDefineResult h compiler false
            (g_set_error G_FILE_ERROR G_FILE_ERROR_FAILED
               invalid_identifier_format [ArgString name]))
  else
    let definition := match definition with Some d => d | None => "1" end in
    let '(h1, define) := gsk_sl_define_new h name None in
    let bytes := g_bytes_new_static definition in
    let source := gsk_code_source_new_for_bytes "<define>" bytes in
    let tokenizer := gsk_sl_tokenizer_new source in
    match add_define_loop fuel h1 define tokenizer None with
    | None => None
    | Some (h2, _, None) =>
        let '(h3, table) :=
          g_hash_table_replace h2 (defines compiler)
            (gsk_sl_define_get_name h2 define) define define in
        Some (mkAddDefineResult h3 (mkCompiler table) true None)
    | Some (h2, _, Some real_error) =>
        Some (mkAddDefineResult (gsk_sl_define_unref h2 define) compiler
                false (g_propagate_error real_error))
    end.

(** [gsk_sl_compiler_remove_define]. *)
Definition gsk_sl_compiler_remove_define (h : gmap addr GskSlDefine)
  (compiler : GskSlCompiler) (name : string)
  : gmap addr GskSlDefine * GskSlCompiler :=
  let '(h', table) := g_hash_table_remove h (defines compiler) name in
  (h', mkCompiler table).

(** One turn of the iteration in [gsk_sl_compiler_copy_defines]. *)
Definition copy_defines_step
  (acc : gmap addr GskSlDefine * gmap string GHashEntry)
  (kv : string * GHashEntry)
  : gmap addr GskSlDefine * gmap string GHashEntry :=
  g_hash_table_replace (gsk_sl_define_ref acc.1 (entry_value kv.2)) acc.2
    kv.1 (entry_key kv.2) (entry_value kv.2).

(** The body of [gsk_sl_compiler_copy_defines] for one order in which
    [GHashTableIter] may yield the entries of the table. *)
Definition copy_defines_from (h : gmap addr GskSlDefine)
  (entries : list (string * GHashEntry))
  : gmap addr GskSlDefine * gmap string GHashEntry :=
  foldl copy_defines_step (h, ∅) entries.

(** [gsk_sl_compiler_copy_defines]; the iteration order of a hash table
    is unspecified, [map_to_list] is one order, and
    [copy_defines_any_order] shows that every other gives the same
    result. *)
Definition gsk_sl_compiler_copy_defines (h : gmap addr GskSlDefine)
  (compiler : GskSlCompiler)
  : gmap addr GskSlDefine * gmap string GHashEntry :=
  copy_defines_from h (map_to_list (defines compiler)).

(** [gsk_sl_compiler_resolve_include]: the returned source ([None] is
    [NULL]) and the error set.  [gsk_code_source_load] sets the error
    when it returns [NULL]; the bytes it returns are dropped at once. *)
Definition gsk_sl_compiler_resolve_include `{FileSystem}
  (compiler : GskSlCompiler) (source : GskCodeSource) (local : bool)
  (name : string) : option GskCodeSource * option GError :=
  if local then
    match gsk_code_source_get_file source with
    | Some source_file =>
        let parent := g_file_get_parent source_file in
        let file := g_file_resolve_relative_path parent name in
        let result := gsk_code_source_new_for_file file in
        match gsk_code_source_load result with
        | inl bytes => (Some result, None)
        | inr e => (None, Some e)
        end
    | None => (None, None)
    end
  else
    (None, g_set_error G_FILE_ERROR G_FILE_ERROR_EXIST search_path_format
             [ArgString name]).

End Defines.

(** ** The compile pipeline *)

(** The preprocessor and the program parser ([gskslpreprocessorprivate.h],
    [gskslprogramprivate.h]).  The preprocessor is bound to the compiler
    (whose defines it reads through the heap) and to the source; parsing
    drives the preprocessor and leaves both objects updated. *)
Class SlBackend `{SlLexer} := {
  GskSlPreprocessor : Type;
  GskSlProgram : Type;
  (* g_object_new (GSK_TYPE_SL_PROGRAM, NULL) *)
  gsk_sl_program_new : GskSlProgram;
  gsk_sl_preprocessor_new :
    gmap addr GskSlDefine → GskSlCompiler → GskCodeSource → GskSlPreprocessor;
  gsk_sl_program_parse :
    GskSlProgram → GskSlPreprocessor → GskSlProgram * GskSlPreprocessor;
  gsk_sl_preprocessor_has_fatal_error : GskSlPreprocessor → bool
}.

Section Compile.
Context `{SlBackend}.

(** [gsk_sl_compiler_compile]; [None] is the [NULL] program.  The
    references the preprocessor takes on the defines are dropped when it
    is released, so the heap is an input only. *)
Definition gsk_sl_compiler_compile (h : gmap addr GskSlDefine)
  (compiler : GskSlCompiler) (source : GskCodeSource) : option GskSlProgram :=
  let program := gsk_sl_program_new in
  let preproc := gsk_sl_preprocessor_new h compiler source in
  let '(program, preproc) := gsk_sl_program_parse program preproc in
  if gsk_sl_preprocessor_has_fatal_error preproc then None
  else Some program.

Definition gsk_sl_compiler_compile_file (h : gmap addr GskSlDefine)
  (compiler : GskSlCompiler) (file : GFile) : option GskSlProgram :=
  let source := gsk_code_source_new_for_file file in
  gsk_sl_compiler_compile h compiler source.

Definition gsk_sl_compiler_compile_bytes (h : gmap addr GskSlDefine)
  (compiler : GskSlCompiler) (bytes : GBytes) : option GskSlProgram :=
  let source := gsk_code_source_new_for_bytes "<program>" bytes in
  gsk_sl_compiler_compile h compiler source.

(** The preprocessor as it stands once the program has been parsed from
    [source]: the object [gsk_sl_preprocessor_has_fatal_error] is asked
    about. *)
Definition preprocessor_after_parse (h : gmap addr GskSlDefine)
  (compiler : GskSlCompiler) (source : GskCodeSource) : GskSlPreprocessor :=
  (gsk_sl_program_parse gsk_sl_program_new
     (gsk_sl_preprocessor_new h compiler source)).2.

(** The program built from [source]. *)
Definition program_after_parse (h : gmap addr GskSlDefine)
  (compiler : GskSlCompiler) (source : GskCodeSource) : GskSlProgram :=
  (gsk_sl_program_parse gsk_sl_program_new
     (gsk_sl_preprocessor_new h compiler source)).1.

End Compile.

(** ** Specification-side notions *)

Section Specification.
Context `{SlLexer}.

(** One call of [gsk_sl_tokenizer_read_token], as seen by its caller. *)
Record ReadEvent := mkReadEvent {
  ev_location : GskCodeLocation;   (* where the token starts *)
  ev_diags : list Diagnostic;      (* reported during the call *)
  ev_token : GskSlToken
}.

(** The tokenization of a source: every read up to and including the
    first EOF token, with the tokenizer left behind. *)
Fixpoint tokenization (fuel : nat) (tokenizer : GskSlTokenizer)
  : option (list ReadEvent * GskSlTokenizer) :=
  match fuel with
  | O => None
  | S fuel' =>
      let location := gsk_sl_tokenizer_get_location tokenizer in
      let '(diags, token, tokenizer') :=
        gsk_sl_tokenizer_read_token tokenizer in
      let ev := mkReadEvent location diags token in
      if gsk_sl_token_is_eof token then Some ([ev], tokenizer')
      else
        match tokenization fuel' tokenizer' with
        | Some (evs, final) => Some (ev :: evs, final)
        | None => None
        end
  end.

(** The text [add_define] tokenizes: the definition, or [1] when the
    caller passes [NULL]. *)
Definition definition_text (definition : option string) : string :=
  match definition with
  | Some d => d
  | None => "1"
  end.

(** The tokenizer [add_define] creates for a definition. *)
Definition define_tokenizer (definition : option string) : GskSlTokenizer :=
  gsk_sl_tokenizer_new (SourceBytes "<define>" (definition_text definition)).

(** Tokens a macro body keeps: neither skippable nor EOF. *)
Definition stored (ev : ReadEvent) : bool :=
  negb (gsk_sl_token_is_skipped (ev_token ev))
  && negb (gsk_sl_token_is_eof (ev_token ev)).

(** The skip-filtered tokenization, each token with its start. *)
Definition macro_body (evs : list ReadEvent)
  : list (GskCodeLocation * GskSlToken) :=
  map (λ ev, (ev_location ev, ev_token ev)) (List.filter stored evs).

(** All diagnostics of a tokenization, in the order reported. *)
Definition diagnostics (evs : list ReadEvent) : list Diagnostic :=
  concat (map ev_diags evs).

(** The first fatal diagnostic, if any. *)
Definition first_fatal (evs : list ReadEvent) : option Diagnostic :=
  List.find diag_fatal (diagnostics evs).

(** EOF tokens are not classified as skippable. *)
Definition eof_not_skipped : Prop :=
  ∀ t, gsk_sl_token_is_eof t = true → gsk_sl_token_is_skipped t = false.

(** [s] is [field] right-justified to [width]: padded on the left with
    spaces, never truncated. *)
Definition right_justified (width : nat) (field s : string) : Prop :=
  ∃ n, s = spaces n +:+ field
       ∧ String.length s = Nat.max width (String.length field).

(** What a table shows at a key: the name and body of the define stored
    there. *)
Definition observe (h : gmap addr GskSlDefine) (t : gmap string GHashEntry)
  (k : string) : option (string * list (GskCodeLocation * GskSlToken)) :=
  match t !! k with
  | Some e =>
      match h !! entry_value e with
      | Some d => Some (define_name d, define_tokens d)
      | None => None
      end
  | None => None
  end.

(** The key stored in the table is the name string of the define it maps
    to, and that define is alive. *)
Definition table_ok (h : gmap addr GskSlDefine) (t : gmap string GHashEntry)
  : Prop :=
  map_Forall (λ k e,
    entry_key e = entry_value e
    ∧ define_name <$> h !! entry_value e = Some k) t.

(** Does table [t] hold a reference to the define [d] stored at [a]? *)
Definition holds (t : gmap string GHashEntry) (a : addr) (d : GskSlDefine)
  : nat :=
  if decide (t !! define_name d = Some (mkEntry a a)) then 1 else 0.

Definition holders (ts : list (gmap string GHashEntry)) (a : addr)
  (d : GskSlDefine) : nat :=
  sum_list (map (λ t, holds t a d) ts).

(** The invariant of a heap and the hash tables alive in it: every table
    is [table_ok], and every define carries at least one reference per
    table that holds it. *)
Definition tables_ok (h : gmap addr GskSlDefine)
  (ts : list (gmap string GHashEntry)) : Prop :=
  Forall (table_ok h) ts
  ∧ map_Forall (λ a d, holders ts a d ≤ ref_count d) h.

#[export] Instance table_ok_dec h t : Decision (table_ok h t).
Proof. unfold table_ok. apply _. Defined.

#[export] Instance tables_ok_dec h ts : Decision (tables_ok h ts).
Proof. unfold tables_ok. apply _. Defined.

(** How many of the [entries] store the define at [a]. *)
Definition refs_taken (entries : list (string * GHashEntry)) (a : addr)
  : nat :=
  length (filter (λ kv, entry_value kv.2 = a) entries).

(** The error the callback stores for a fatal diagnostic when none is
    stored yet. *)
Definition captured (d : Diagnostic) : option GError :=
  gsk_sl_compiler_add_define_error_func None d.

(** The define [d] with [body] appended to its tokens. *)
Definition extended (d : GskSlDefine)
  (body : list (GskCodeLocation * GskSlToken)) : GskSlDefine :=
  mkDefine (ref_count d) (define_name d) (define_source_file d)
    (define_tokens d ++ body).

(** The reading of the token loop under which a fatal diagnostic aborts
    it: once a read has reported a fatal diagnostic, the loop ends with
    the tokenizer as that read left it and with the define as it was. *)
Definition fatal_aborts_read_loop : Prop :=
  ∀ fuel (h : gmap addr GskSlDefine) define tokenizer h' final real_error,
    existsb diag_fatal (gsk_sl_tokenizer_read_token tokenizer).1.1 = true →
    add_define_loop fuel h define tokenizer None
    = Some (h', final, real_error) →
    final = (gsk_sl_tokenizer_read_token tokenizer).2
    ∧ h' !! define = h !! define.

(** A mutation of a table through the compiler that owns it. *)
Inductive mutation :=
  | AddDefine (fuel : nat) (name : string) (definition : option string)
  | RemoveDefine (name : string).

Definition mutate (m : mutation) (h : gmap addr GskSlDefine)
  (compiler : GskSlCompiler)
  : option (gmap addr GskSlDefine * GskSlCompiler) :=
  match m with
  | AddDefine fuel name definition =>
      match gsk_sl_compiler_add_define fuel h compiler name definition with
      | Some r => Some (res_heap r, res_compiler r)
      | None => None
      end
  | RemoveDefine name => Some (gsk_sl_compiler_remove_define h compiler name)
  end.

Fixpoint mutate_all (ms : list mutation) (h : gmap addr GskSlDefine)
  (compiler : GskSlCompiler)
  : option (gmap addr GskSlDefine * GskSlCompiler) :=
  match ms with
  | [] => Some (h, compiler)
  | m :: ms' =>
      match mutate m h compiler with
      | Some (h', compiler') => mutate_all ms' h' compiler'
      | None => None
      end
  end.

End Specification.

(** ** Disposal *)

Section Disposal.
Context `{SlLexer}.

(** The body of [g_hash_table_destroy] for one order in which the
    entries are visited: the table has no key destructor, and each value
    is handed to [gsk_sl_define_unref]. *)
Definition destroy_from (h : gmap addr GskSlDefine)
  (entries : list (string * GHashEntry)) : gmap addr GskSlDefine :=
  foldl (λ h kv, gsk_sl_define_unref h (entry_value kv.2)) h entries.

(** [g_hash_table_destroy (table)]: what is left of the heap. *)
Definition g_hash_table_destroy (h : gmap addr GskSlDefine)
  (table : gmap string GHashEntry) : gmap addr GskSlDefine :=
  destroy_from h (map_to_list table).

(** [gsk_sl_compiler_dispose]: the table is destroyed; chaining up to the
    parent class touches no define. *)
Definition gsk_sl_compiler_dispose (h : gmap addr GskSlDefine)
  (compiler : GskSlCompiler) : gmap addr GskSlDefine :=
  g_hash_table_destroy h (defines compiler).

(** A heap that holds the defines of one table and nothing else, each
    with the table's single reference. *)
Definition owned (h : gmap addr GskSlDefine) (t : gmap string GHashEntry)
  : Prop :=
  table_ok h t
  ∧ map_Forall (λ a d,
      ref_count d = 1 ∧ t !! define_name d = Some (mkEntry a a)) h.

#[export] Instance owned_dec h t : Decision (owned h t).
Proof. unfold owned. apply _. Defined.

End Disposal.

(** ** A small lexer on which the model runs

    Not GSK's tokenizer: every character other than white space is a token
    of its own, [$] is a lexical error (fatal) and [?] draws a warning. *)

Module Toy.

Inductive token :=
  | TEof
  | TSpace
  | TChar (c : ascii)
  | TError.

Record tokenizer := mkTokenizer {
  rest : string;
  position : GskCodeLocation
}.

Definition is_newline (c : ascii) : bool := Nat.eqb (nat_of_ascii c) 10.
Definition is_space (c : ascii) : bool :=
  Nat.eqb (nat_of_ascii c) 32 || is_newline c.

Definition is_alpha (c : ascii) : bool :=
  let n := nat_of_ascii c in
  ((65 <=? n) && (n <=? 90)) || ((97 <=? n) && (n <=? 122)) || (n =? 95).

Fixpoint all_chars (p : ascii → bool) (s : string) : bool :=
  match s with
  | EmptyString => true
  | String c s' => p c && all_chars p s'
  end.

Definition is_valid_identifier (s : string) : bool :=
  match s with
  | EmptyString => false
  | String c s' => is_alpha c && all_chars (λ c, is_alpha c || is_digit c) s'
  end.

Definition advance (c : ascii) (l : GskCodeLocation) : GskCodeLocation :=
  if is_newline c then mkLocation (gsize_add (lines l) 1) 0
  else mkLocation (lines l) (gsize_add (line_bytes l) 1).

Definition lexical_error : GError :=
  mkGError "gsk-sl-compiler-error-quark" 0 "Unexpected character".
Definition lexical_warning : GError :=
  mkGError "gsk-sl-compiler-warning-quark" 0 "Questionable character".

Definition read_token (tk : tokenizer)
  : list Diagnostic * token * tokenizer :=
  match rest tk with
  | EmptyString => ([], TEof, tk)
  | String c s =>
      let tk' := mkTokenizer s (advance c (position tk)) in
      if is_space c then ([], TSpace, tk')
      else if Nat.eqb (nat_of_ascii c) 36 then
        ([mkDiagnostic true (position tk) lexical_error], TError, tk')
      else if Nat.eqb (nat_of_ascii c) 63 then
        ([mkDiagnostic false (position tk) lexical_warning], TChar c, tk')
      else ([], TChar c, tk')
  end.

Definition new (source : GskCodeSource) : tokenizer :=
  match source with
  | SourceBytes _ bytes => mkTokenizer bytes (mkLocation 0 0)
  | SourceFile _ => mkTokenizer EmptyString (mkLocation 0 0)
  end.

#[export] Instance lexer : SlLexer := {|
  GskSlToken := token;
  GskSlTokenizer := tokenizer;
  gsk_sl_string_is_valid_identifier := is_valid_identifier;
  gsk_sl_token_is_skipped t :=
    match t with TSpace | TError => true | _ => false end;
  gsk_sl_token_is_eof t := match t with TEof => true | _ => false end;
  gsk_sl_tokenizer_new := new;
  gsk_sl_tokenizer_get_location := position;
  gsk_sl_tokenizer_read_token := read_token
|}.

(** The state [add_define ("FOO", "a b")] leaves a new compiler in. *)
Definition foo_define : GskSlDefine :=
  mkDefine 1 "FOO" None
    [(mkLocation 0 0, TChar "a"); (mkLocation 0 2, TChar "b")].

Definition foo_heap : gmap addr GskSlDefine := {[ 1%positive := foo_define ]}.

Definition foo_compiler : GskSlCompiler :=
  mkCompiler {[ "FOO" := mkEntry 1%positive 1%positive ]}.

(** What [copy_defines] returns in that state. *)
Definition foo_copy : gmap addr GskSlDefine * gmap string GHashEntry :=
  gsk_sl_compiler_copy_defines foo_heap foo_compiler.

(** The tokenizer [add_define] creates for the definition [$b]. *)
Definition dollar_b_tokenizer : tokenizer := new (SourceBytes "<define>" "$b").

(** A compiler with two defines, [FOO] as [a b] and [BAR] as [b]. *)
Definition bar_define : GskSlDefine :=
  mkDefine 1 "BAR" None [(mkLocation 0 0, TChar "b")].

Definition foo_bar_heap : gmap addr GskSlDefine :=
  <[2%positive := bar_define]> foo_heap.

Definition foo_bar_compiler : GskSlCompiler :=
  mkCompiler (<["BAR" := mkEntry 2%positive 2%positive]> (defines foo_compiler)).

(** What [add_define ("BAR", "b")] returns in the state of [foo_heap]. *)
Definition bar_added : AddDefineResult :=
  mkAddDefineResult foo_bar_heap foo_bar_compiler true None.

(** What [add_define ("FOO", "b")] returns there: [FOO] is redefined. *)
Definition foo_redefined : AddDefineResult :=
  mkAddDefineResult
    {[ 2%positive := mkDefine 1 "FOO" None [(mkLocation 0 0, TChar "b")] ]}
    (mkCompiler {[ "FOO" := mkEntry 2%positive 2%positive ]}) true None.

(** A second copy, taken after [foo_copy]. *)
Definition foo_copy_again : gmap addr GskSlDefine * gmap string GHashEntry :=
  gsk_sl_compiler_copy_defines foo_copy.1 foo_compiler.

(** A session on a new compiler: two definitions, a removal and a
    definition that fails in the tokenizer; and the state it ends in. *)
Definition session : list mutation :=
  [AddDefine 10 "FOO" (Some "a b"); AddDefine 10 "BAR" (Some "b");
   RemoveDefine "FOO"; AddDefine 10 "BAZ" (Some "a $b")].

Definition bar_heap : gmap addr GskSlDefine := {[ 2%positive := bar_define ]}.

Definition bar_compiler : GskSlCompiler :=
  mkCompiler {[ "BAR" := mkEntry 2%positive 2%positive ]}.

(** A file system with one directory: every file's parent is [dir],
    a relative path resolves to [dir/name], and [dir/common.glsl] is the
    only file that loads. *)
Definition not_found : GError :=
  mkGError "g-io-error-quark" 1 "No such file or directory".

#[export] Instance one_directory : FileSystem := {|
  g_file_get_parent _ := "dir";
  g_file_resolve_relative_path parent name := parent +:+ "/" +:+ name;
  g_file_load_contents file :=
    if String.eqb file "dir/common.glsl" then inl "void main () {}"
    else inr not_found
|}.

(** The reads of the definition [a b]. *)
Definition ab_events : list ReadEvent :=
  [mkReadEvent (mkLocation 0 0) [] (TChar "a");
   mkReadEvent (mkLocation 0 1) [] TSpace;
   mkReadEvent (mkLocation 0 2) [] (TChar "b");
   mkReadEvent (mkLocation 0 3) [] TEof].

(** The reads of the definition [a $b], whose third read reports a fatal
    diagnostic. *)
Definition a_dollar_b : string := "a $b".

Definition dollar_diagnostic : Diagnostic :=
  mkDiagnostic true (mkLocation 0 2) lexical_error.

Definition a_dollar_b_events : list ReadEvent :=
  [mkReadEvent (mkLocation 0 0) [] (TChar "a");
   mkReadEvent (mkLocation 0 1) [] TSpace;
   mkReadEvent (mkLocation 0 2) [dollar_diagnostic] TError;
   mkReadEvent (mkLocation 0 3) [] (TChar "b");
   mkReadEvent (mkLocation 0 4) [] TEof].

(** What [add_define ("BAZ", "a $b")] returns there: the tokenizer
    reports a fatal diagnostic. *)
Definition baz_failed : AddDefineResult :=
  mkAddDefineResult foo_heap foo_compiler false (captured dollar_diagnostic).

End Toy.

(** * Properties *)

(** ** Strings and formatting *)

Lemma string_app_cons c (s1 s2 : string) :
  String c s1 +:+ s2 = String c (s1 +:+ s2).
Proof. reflexivity. Qed.

Lemma string_app_assoc (s1 s2 s3 : string) :
  (s1 +:+ s2) +:+ s3 = s1 +:+ s2 +:+ s3.
Proof.
  induction s1 as [|c s1 IH]; [done|].
  by rewrite !string_app_cons, IH.
Qed.

Lemma string_app_length (s1 s2 : string) :
  String.length (s1 +:+ s2) = String.length s1 + String.length s2.
Proof.
  induction s1 as [|c s1 IH]; [done|].
  rewrite string_app_cons. simpl. by rewrite IH.
Qed.

Lemma spaces_length n : String.length (spaces n) = n.
Proof. induction n as [|n IH]; simpl; [done|]. f_equal. exact IH. Qed.

Lemma pad_field_right_justified width field :
  right_justified width field (pad_field width field).
Proof.
  exists (width - String.length field). split; [done|].
  unfold pad_field. rewrite string_app_length, spaces_length. lia.
Qed.

Ltac run_parse_format :=
  match goal with
  | |- context [parse_format ?n ?s] =>
      let ds := eval vm_compute in (parse_format n s) in
      change (parse_format n s) with ds
  end.

Lemma format_location a b :
  g_strdup_printf location_format [ArgSize a; ArgSize b]
  = pad_field 3 (decimal a) +:+ ":" +:+ pad_field 2 (decimal b) +:+ ": ".
Proof.
  unfold g_strdup_printf, location_format. run_parse_format.
  reflexivity.
Qed.

Lemma format_invalid_identifier name :
  g_strdup_printf invalid_identifier_format [ArgString name]
  = "Define name " +:+ dquote +:+ name +:+ dquote
    +:+ " is not a valid identifier".
Proof.
  unfold g_strdup_printf, invalid_identifier_format. run_parse_format.
  reflexivity.
Qed.

Lemma format_search_path name :
  g_strdup_printf search_path_format [ArgString name]
  = "Could not resolve " +:+ dquote +:+ name +:+ dquote
    +:+ " in search path.".
Proof.
  unfold g_strdup_printf, search_path_format. run_parse_format.
  reflexivity.
Qed.

Lemma gsize_add_small a b :
  (a + b < gsize_modulus)%N → gsize_add a b = (a + b)%N.
Proof. intros Hlt. unfold gsize_add. by apply N.mod_small. Qed.

(** ** The compile pipeline *)

Section CompileProperties.
Context `{SlBackend}.

Lemma compile_cases h compiler source :
  gsk_sl_compiler_compile h compiler source
  = if gsk_sl_preprocessor_has_fatal_error
         (preprocessor_after_parse h compiler source)
    then None
    else Some (program_after_parse h compiler source).
Proof.
  unfold gsk_sl_compiler_compile, preprocessor_after_parse,
    program_after_parse.
  by destruct (gsk_sl_program_parse _ _) as [program preproc].
Qed.

(** C1.  A compile call, through [compile_file] or [compile_bytes],
    returns [NULL] exactly when the preprocessor has recorded a fatal
    error by the end of parsing; otherwise it returns the program that
    was built, and nothing else is ever returned. *)
Theorem compile_all_or_nothing h compiler :
  (∀ file,
     let source := SourceFile file in
     (gsk_sl_compiler_compile_file h compiler file = None
      ↔ gsk_sl_preprocessor_has_fatal_error
          (preprocessor_after_parse h compiler source) = true)
     ∧ (∀ program,
          gsk_sl_compiler_compile_file h compiler file = Some program
          ↔ gsk_sl_preprocessor_has_fatal_error
              (preprocessor_after_parse h compiler source) = false
            ∧ program = program_after_parse h compiler source))
  ∧ (∀ bytes,
       let source := SourceBytes "<program>" bytes in
       (gsk_sl_compiler_compile_bytes h compiler bytes = None
        ↔ gsk_sl_preprocessor_has_fatal_error
            (preprocessor_after_parse h compiler source) = true)
       ∧ (∀ program,
            gsk_sl_compiler_compile_bytes h compiler bytes = Some program
            ↔ gsk_sl_preprocessor_has_fatal_error
                (preprocessor_after_parse h compiler source) = false
              ∧ program = program_after_parse h compiler source)).
Proof.
  split; intros src; simpl;
    unfold gsk_sl_compiler_compile_file, gsk_sl_compiler_compile_bytes,
      gsk_code_source_new_for_file, gsk_code_source_new_for_bytes;
    rewrite compile_cases;
    destruct (gsk_sl_preprocessor_has_fatal_error _).
  all: split; [split; congruence|].
  all: intros program; split.
  all: try congruence.
  all: try (intros [? ->]; congruence).
  all: intros [= <-]; auto.
Qed.

End CompileProperties.

(** ** Include resolution *)

Section IncludeProperties.
Context `{FileSystem}.

(** C5.  A non-local include never resolves: whatever the base source and
    the name, no source is returned and the error set is the search-path
    error, whose message quotes the requested name. *)
Theorem resolve_include_search_path_fails compiler source name :
  gsk_sl_compiler_resolve_include compiler source false name
  = (None,
     Some (mkGError G_FILE_ERROR G_FILE_ERROR_EXIST
             ("Could not resolve " +:+ dquote +:+ name +:+ dquote
              +:+ " in search path."))).
Proof.
  unfold gsk_sl_compiler_resolve_include, g_set_error.
  by rewrite format_search_path.
Qed.

(** C6 (the code at the failing input).  A local include against a source
    that has no backing file returns [NULL] and leaves the error unset. *)
Theorem resolve_include_local_without_file_is_silent compiler display_name
  bytes name :
  gsk_sl_compiler_resolve_include compiler
    (gsk_code_source_new_for_bytes display_name bytes) true name
  = (None, None).
Proof. reflexivity. Qed.

End IncludeProperties.

(** ** The error callback *)

Section AddDefineProperties.
Context `{SlLexer}.

Lemma error_func_keeps_first e ds :
  foldl gsk_sl_compiler_add_define_error_func (Some e) ds = Some e.
Proof.
  induction ds as [|d ds IH]; simpl; [done|].
  unfold gsk_sl_compiler_add_define_error_func at 2.
  by destruct (diag_fatal d).
Qed.

Lemma error_func_first_fatal ds :
  foldl gsk_sl_compiler_add_define_error_func None ds
  = match List.find diag_fatal ds with
    | Some d => captured d
    | None => None
    end.
Proof.
  induction ds as [|d ds IH]; simpl; [done|].
  destruct (diag_fatal d) eqn:Hfatal.
  - unfold captured, gsk_sl_compiler_add_define_error_func at 2.
    unfold gsk_sl_compiler_add_define_error_func at 2.
    rewrite Hfatal. simpl. apply error_func_keeps_first.
  - unfold gsk_sl_compiler_add_define_error_func at 2.
    by rewrite Hfatal.
Qed.

Lemma error_func_no_fatal ds :
  forallb (λ d, negb (diag_fatal d)) ds = true →
  foldl gsk_sl_compiler_add_define_error_func None ds = None.
Proof.
  intros Hall. rewrite error_func_first_fatal.
  destruct (List.find diag_fatal ds) as [d|] eqn:Hfind; [|done].
  apply List.find_some in Hfind as [Hin Hfatal].
  rewrite forallb_forall in Hall. specialize (Hall d Hin).
  by rewrite Hfatal in Hall.
Qed.

Lemma error_func_app err ds1 ds2 :
  foldl gsk_sl_compiler_add_define_error_func err (ds1 ++ ds2)
  = foldl gsk_sl_compiler_add_define_error_func
      (foldl gsk_sl_compiler_add_define_error_func err ds1) ds2.
Proof. apply foldl_app. Qed.

(** The captured error is the diagnostic's error with the location tag in
    front of its message: line + 1 in a field of width 3, the byte column
    in a field of width 2. *)
Lemma captured_format d :
  diag_fatal d = true →
  (lines (diag_location d) + 1 < gsize_modulus)%N →
  ∃ line col,
    right_justified 3 (decimal (lines (diag_location d) + 1)) line
    ∧ right_justified 2 (decimal (line_bytes (diag_location d))) col
    ∧ captured d
      = Some (mkGError (domain (diag_error d)) (code (diag_error d))
                (line +:+ ":" +:+ col +:+ ": " +:+ message (diag_error d))).
Proof.
  intros Hfatal Hsmall.
  exists (pad_field 3 (decimal (lines (diag_location d) + 1))),
    (pad_field 2 (decimal (line_bytes (diag_location d)))).
  split; [apply pad_field_right_justified|].
  split; [apply pad_field_right_justified|].
  unfold captured, gsk_sl_compiler_add_define_error_func.
  rewrite Hfatal. simpl. unfold g_error_copy. simpl.
  rewrite format_location, gsize_add_small by done.
  by rewrite !string_app_assoc.
Qed.

(** ** The token loop *)

Lemma extended_nil d : extended d [] = d.
Proof. destruct d. unfold extended. simpl. by rewrite app_nil_r. Qed.

Lemma extended_cons d loc t body :
  extended (with_token loc t d) body = extended d ((loc, t) :: body).
Proof. unfold extended, with_token. simpl. by rewrite <- app_assoc. Qed.

Lemma add_token_insert (h : gmap addr GskSlDefine) a d loc t :
  h !! a = Some d →
  gsk_sl_define_add_token h a loc t = <[a := with_token loc t d]> h.
Proof.
  intros Hd. unfold gsk_sl_define_add_token. apply map_eq. intros i.
  rewrite lookup_alter, lookup_insert.
  destruct (decide (a = i)) as [->|]; [by rewrite Hd | done].
Qed.

(** The loop performs exactly the reads of the tokenization: it ends with
    the tokenizer behind the EOF token, has appended the skip-filtered
    tokens to the define, and has passed every diagnostic to the
    callback. *)
Lemma add_define_loop_spec fuel :
  eof_not_skipped →
  ∀ (h : gmap addr GskSlDefine) a d tokenizer err evs final,
    h !! a = Some d →
    tokenization fuel tokenizer = Some (evs, final) →
    add_define_loop fuel h a tokenizer err
    = Some (<[a := extended d (macro_body evs)]> h, final,
            foldl gsk_sl_compiler_add_define_error_func err
              (diagnostics evs)).
Proof.
  intros Heof. induction fuel as [|fuel IH];
    intros h a d tokenizer err evs final Hd Htok; simpl in *; [done|].
  destruct (gsk_sl_tokenizer_read_token tokenizer)
    as [[diags token] tokenizer'].
  destruct (gsk_sl_token_is_eof token) eqn:Heoft.
  - rewrite (Heof _ Heoft). simplify_eq.
    unfold macro_body, diagnostics, stored. simpl.
    rewrite Heoft, andb_false_r. simpl.
    by rewrite extended_nil, insert_id, app_nil_r.
  - destruct (tokenization fuel tokenizer') as [[evs' final']|] eqn:Htok';
      [|done].
    simplify_eq.
    destruct (gsk_sl_token_is_skipped token) eqn:Hskip.
    + rewrite (IH h a d _ _ evs' final Hd Htok').
      unfold macro_body, diagnostics, stored. simpl.
      rewrite Hskip. simpl. by rewrite error_func_app.
    + rewrite (add_token_insert _ _ d) by done.
      rewrite (IH _ a (with_token (gsk_sl_tokenizer_get_location tokenizer)
                         token d) _ _ evs' final)
        by (by rewrite ?lookup_insert_eq).
      rewrite insert_insert_eq, extended_cons.
      unfold macro_body, diagnostics, stored. simpl.
      rewrite Hskip, Heoft. simpl. by rewrite error_func_app.
Qed.

(** Fuel is only a bound: more fuel gives the same tokenization. *)
Lemma tokenization_more_fuel fuel fuel' tokenizer r :
  fuel ≤ fuel' →
  tokenization fuel tokenizer = Some r →
  tokenization fuel' tokenizer = Some r.
Proof.
  revert fuel' tokenizer r.
  induction fuel as [|fuel IH]; intros fuel' tokenizer r Hle Htok;
    simpl in *; [done|].
  destruct fuel' as [|fuel']; [lia|]. simpl.
  destruct (gsk_sl_tokenizer_read_token tokenizer)
    as [[diags token] tokenizer'].
  destruct (gsk_sl_token_is_eof token); [done|].
  destruct (tokenization fuel tokenizer') as [r'|] eqn:Htok'; [|done].
  by rewrite (IH fuel' _ r') by (done || lia).
Qed.

(** A tokenization of [n] reads needs [n] units of fuel. *)
Lemma tokenization_length fuel tokenizer evs final :
  tokenization fuel tokenizer = Some (evs, final) →
  length evs ≤ fuel ∧ tokenization (length evs) tokenizer = Some (evs, final).
Proof.
  revert tokenizer evs final.
  induction fuel as [|fuel IH]; intros tokenizer evs final Htok;
    simpl in *; [done|].
  destruct (gsk_sl_tokenizer_read_token tokenizer)
    as [[diags token] tokenizer'] eqn:Hread.
  destruct (gsk_sl_token_is_eof token) eqn:Heoft.
  - simplify_eq. simpl. rewrite Hread, Heoft. split; [lia|done].
  - destruct (tokenization fuel tokenizer') as [[evs' final']|] eqn:Htok';
      [|done].
    simplify_eq. destruct (IH _ _ _ Htok') as [Hle Hexact].
    simpl. rewrite Hread, Heoft, Hexact. split; [lia|done].
Qed.

(** With less fuel than the tokenization has reads, the loop does not
    reach its end. *)
Lemma add_define_loop_needs_fuel fuel :
  eof_not_skipped →
  ∀ (h : gmap addr GskSlDefine) a tokenizer err evs final n,
    tokenization n tokenizer = Some (evs, final) →
    fuel < length evs →
    add_define_loop fuel h a tokenizer err = None.
Proof.
  intros Heof. induction fuel as [|fuel IH];
    intros h a tokenizer err evs final n Htok Hlt; simpl; [done|].
  destruct n as [|n]; [done|]. simpl in Htok.
  destruct (gsk_sl_tokenizer_read_token tokenizer)
    as [[diags token] tokenizer'].
  destruct (gsk_sl_token_is_eof token) eqn:Heoft.
  - simplify_eq. simpl in Hlt. lia.
  - destruct (tokenization n tokenizer') as [[evs' final']|] eqn:Htok';
      [|done].
    simplify_eq. simpl in Hlt.
    destruct (gsk_sl_token_is_skipped token);
      eapply IH; eauto; lia.
Qed.

End AddDefineProperties.

(** ** The heap and the tables *)

Section TableProperties.
Context `{SlLexer}.
Implicit Types (h : gmap addr GskSlDefine) (t : gmap string GHashEntry).

Lemma with_ref_count_same d : with_ref_count d (ref_count d) = d.
Proof. by destruct d. Qed.

Lemma ref_lookup_ne h a b :
  a ≠ b → gsk_sl_define_ref h a !! b = h !! b.
Proof.
  intros Hne. unfold gsk_sl_define_ref. rewrite lookup_alter.
  by destruct (decide (a = b)).
Qed.

Lemma ref_lookup_eq h a :
  gsk_sl_define_ref h a !! a
  = (λ d, with_ref_count d (S (ref_count d))) <$> h !! a.
Proof.
  unfold gsk_sl_define_ref. rewrite lookup_alter.
  by destruct (decide (a = a)).
Qed.

Lemma unref_lookup_ne h a b :
  a ≠ b → gsk_sl_define_unref h a !! b = h !! b.
Proof.
  intros Hne. unfold gsk_sl_define_unref.
  destruct (h !! a) as [d|]; [|done].
  destruct (decide (ref_count d ≤ 1)).
  - by rewrite lookup_delete_ne.
  - by rewrite lookup_insert_ne.
Qed.

Lemma unref_lookup_eq h a d :
  h !! a = Some d →
  gsk_sl_define_unref h a !! a
  = if decide (ref_count d ≤ 1) then None
    else Some (with_ref_count d (ref_count d - 1)).
Proof.
  intros Hd. unfold gsk_sl_define_unref. rewrite Hd.
  destruct (decide (ref_count d ≤ 1)).
  - by rewrite lookup_delete_eq.
  - by rewrite lookup_insert_eq.
Qed.

(** *** Copying a table *)

Lemma entry_eta (e : GHashEntry) : mkEntry (entry_key e) (entry_value e) = e.
Proof. by destruct e. Qed.

Lemma copy_fold_split (l : list (string * GHashEntry)) :
  NoDup l.*1 →
  ∀ h0 acc,
    (∀ k, k ∈ l.*1 → acc !! k = None) →
    foldl copy_defines_step (h0, acc) l
    = (foldl (λ h kv, gsk_sl_define_ref h (entry_value kv.2)) h0 l,
       foldl (λ t kv, <[(kv.1) := (kv.2)]> t) acc l).
Proof.
  induction l as [|[k e] l IH]; intros Hnd h0 acc Hfree; simpl; [done|].
  rewrite fmap_cons in Hnd, Hfree. simpl in Hnd, Hfree.
  apply NoDup_cons in Hnd as [Hk Hnd].
  unfold copy_defines_step at 2, g_hash_table_replace. simpl.
  rewrite (Hfree k) by left. rewrite entry_eta.
  apply IH; [done|]. intros k' Hk'.
  rewrite lookup_insert_ne by (by intros ->).
  apply Hfree. by right.
Qed.

Lemma foldl_insert_lookup (l : list (string * GHashEntry)) :
  NoDup l.*1 →
  ∀ acc k e,
    foldl (λ t kv, <[(kv.1) := (kv.2)]> t) acc l !! k = Some e
    ↔ (k, e) ∈ l ∨ ((k ∉ l.*1) ∧ acc !! k = Some e).
Proof.
  induction l as [|[k0 e0] l IH]; intros Hnd acc k e; simpl.
  - split; [intros ?; right; split; [apply not_elem_of_nil|done]|].
    intros [Hin|[_ ?]]; [by apply elem_of_nil in Hin|done].
  - rewrite fmap_cons in *. simpl in Hnd |- *.
    apply NoDup_cons in Hnd as [Hk0 Hnd].
    assert (∀ e', (k0, e') ∈ l → False) as Hfresh.
    { intros e' Hin. apply Hk0, list_elem_of_fmap. by exists (k0, e'). }
    rewrite (IH Hnd), !elem_of_cons, lookup_insert.
    destruct (decide (k0 = k)) as [->|Hne]; [|naive_solver].
    split.
    + intros [Hin|[Hnin Heq]]; [by destruct (Hfresh e)|].
      left; left. congruence.
    + intros [[Heq|Hin]|[Hnin _]]; [|by left|by destruct Hnin; left].
      right. split; [done|]. congruence.
Qed.

Lemma refs_taken_cons kv (l : list (string * GHashEntry)) a :
  refs_taken (kv :: l) a
  = (if decide (entry_value kv.2 = a) then 1 else 0) + refs_taken l a.
Proof.
  unfold refs_taken. rewrite filter_cons.
  by destruct (decide (entry_value kv.2 = a)).
Qed.

Lemma foldl_ref_lookup (l : list (string * GHashEntry)) :
  ∀ h0 a,
    foldl (λ h kv, gsk_sl_define_ref h (entry_value kv.2)) h0 l !! a
    = (λ d, with_ref_count d (ref_count d + refs_taken l a)) <$> h0 !! a.
Proof.
  induction l as [|kv l IH]; intros h0 a; simpl.
  - destruct (h0 !! a) as [d|]; simpl; [|done].
    unfold refs_taken. simpl. by rewrite Nat.add_0_r, with_ref_count_same.
  - rewrite IH, refs_taken_cons.
    destruct (decide (entry_value kv.2 = a)) as [->|Hne].
    + rewrite ref_lookup_eq. destruct (h0 !! _) as [d|]; simpl; [|done].
      unfold with_ref_count. simpl. do 2 f_equal. lia.
    + by rewrite ref_lookup_ne.
Qed.

Lemma copy_defines_from_table h (l : list (string * GHashEntry)) k e :
  NoDup l.*1 →
  (copy_defines_from h l).2 !! k = Some e ↔ (k, e) ∈ l.
Proof.
  intros Hnd. unfold copy_defines_from.
  rewrite copy_fold_split by (done || intros; apply lookup_empty). simpl.
  rewrite foldl_insert_lookup by done. rewrite lookup_empty. naive_solver.
Qed.

Lemma copy_defines_from_heap h (l : list (string * GHashEntry)) a :
  NoDup l.*1 →
  (copy_defines_from h l).1 !! a
  = (λ d, with_ref_count d (ref_count d + refs_taken l a)) <$> h !! a.
Proof.
  intros Hnd. unfold copy_defines_from.
  rewrite copy_fold_split by (done || intros; apply lookup_empty). simpl.
  apply foldl_ref_lookup.
Qed.

(** The order in which the iterator yields the entries does not matter. *)
Lemma copy_defines_any_order h t (l : list (string * GHashEntry)) :
  l ≡ₚ map_to_list t →
  copy_defines_from h l = copy_defines_from h (map_to_list t).
Proof.
  intros Hperm.
  assert (NoDup l.*1) as Hnd.
  { rewrite Hperm. apply NoDup_fst_map_to_list. }
  pose proof (NoDup_fst_map_to_list t) as Hnd'.
  apply injective_projections.
  - assert (∀ a, refs_taken l a = refs_taken (map_to_list t) a) as Hrefs.
    { intros a. unfold refs_taken. by rewrite Hperm. }
    apply map_eq. intros a. rewrite !copy_defines_from_heap by done.
    by rewrite Hrefs.
  - apply map_eq. intros k. apply option_eq. intros e.
    rewrite !copy_defines_from_table by done. by rewrite Hperm.
Qed.

(** The copy is the table itself: same keys, same stored pointers. *)
Lemma copy_defines_table h compiler :
  (gsk_sl_compiler_copy_defines h compiler).2 = defines compiler.
Proof.
  apply map_eq. intros k. apply option_eq. intros e.
  unfold gsk_sl_compiler_copy_defines.
  rewrite copy_defines_from_table by apply NoDup_fst_map_to_list.
  apply elem_of_map_to_list.
Qed.

Lemma copy_defines_heap h compiler a :
  (gsk_sl_compiler_copy_defines h compiler).1 !! a
  = (λ d, with_ref_count d
            (ref_count d + refs_taken (map_to_list (defines compiler)) a))
    <$> h !! a.
Proof.
  unfold gsk_sl_compiler_copy_defines.
  apply copy_defines_from_heap, NoDup_fst_map_to_list.
Qed.

End TableProperties.

(** ** The invariant of the heap and its tables *)

Section InvariantProperties.
Context `{SlLexer}.
Implicit Types (h : gmap addr GskSlDefine) (t : gmap string GHashEntry).
Implicit Types (ts rest : list (gmap string GHashEntry)).

Lemma holders_cons t ts a d :
  holders (t :: ts) a d = holds t a d + holders ts a d.
Proof. done. Qed.

Lemma holds_le_1 t a d : holds t a d ≤ 1.
Proof. unfold holds. case_decide; lia. Qed.

Lemma holders_elem t ts a d : t ∈ ts → holds t a d ≤ holders ts a d.
Proof.
  induction 1 as [t ts|t t' ts _ IH]; rewrite holders_cons; lia.
Qed.

Lemma holds_name t a d d' :
  define_name d = define_name d' → holds t a d = holds t a d'.
Proof. intros Hname. unfold holds. by rewrite Hname. Qed.

Lemma holders_name ts a d d' :
  define_name d = define_name d' → holders ts a d = holders ts a d'.
Proof.
  intros Hname. induction ts as [|t ts IH]; [done|].
  by rewrite !holders_cons, IH, (holds_name t a d d').
Qed.

Lemma holds_yes t a d :
  t !! define_name d = Some (mkEntry a a) → holds t a d = 1.
Proof. intros Ht. unfold holds. by rewrite decide_True. Qed.

Lemma holds_no t a d :
  t !! define_name d ≠ Some (mkEntry a a) → holds t a d = 0.
Proof. intros Ht. unfold holds. by rewrite decide_False. Qed.

Lemma table_ok_lookup h t k e :
  table_ok h t → t !! k = Some e →
  e = mkEntry (entry_value e) (entry_value e)
  ∧ ∃ d, h !! entry_value e = Some d ∧ define_name d = k.
Proof.
  intros Hok He. destruct (Hok k e He) as [Hkey Hname]. split.
  - destruct e; simpl in *; congruence.
  - destruct (h !! entry_value e) as [d|]; simpl in *; simplify_eq; eauto.
Qed.

Lemma table_ok_intro h t :
  (∀ k e, t !! k = Some e →
     entry_key e = entry_value e
     ∧ ∃ d, h !! entry_value e = Some d ∧ define_name d = k) →
  table_ok h t.
Proof.
  intros Hall k e He. destruct (Hall k e He) as [Hkey (d & Hd & Hname)].
  split; [done|]. by rewrite Hd; simpl; rewrite Hname.
Qed.

Lemma table_ok_holds h t k e d :
  table_ok h t → t !! k = Some e → h !! entry_value e = Some d →
  holds t (entry_value e) d = 1.
Proof.
  intros Hok He Hd.
  destruct (table_ok_lookup _ _ _ _ Hok He) as [Heta (d' & Hd' & Hname)].
  simplify_eq. apply holds_yes. by rewrite He, <- Heta.
Qed.

(** A table that holds the define at [a] carries it under its name. *)
Lemma table_ok_value_key h t k e d :
  table_ok h t → t !! k = Some e → h !! entry_value e = Some d →
  define_name d = k.
Proof.
  intros Hok He Hd.
  destruct (table_ok_lookup _ _ _ _ Hok He) as [_ (d' & Hd' & Hname)].
  congruence.
Qed.

Lemma tables_ok_elem h ts t : tables_ok h ts → t ∈ ts → table_ok h t.
Proof. intros [Hts _] Hin. by eapply Forall_forall in Hts. Qed.

Lemma tables_ok_count h ts a d :
  tables_ok h ts → h !! a = Some d → holders ts a d ≤ ref_count d.
Proof. intros [_ Hcount] Hd. by apply (Hcount a d). Qed.

Lemma tables_ok_intro h ts :
  (∀ t, t ∈ ts → table_ok h t) →
  (∀ a d, h !! a = Some d → holders ts a d ≤ ref_count d) →
  tables_ok h ts.
Proof. intros Hts Hcount. split; [by apply Forall_forall|done]. Qed.

(** The invariant does not depend on the order the tables are listed in. *)
Lemma holders_perm ts ts' a d : ts ≡ₚ ts' → holders ts a d = holders ts' a d.
Proof. intros Hperm. unfold holders. by rewrite Hperm. Qed.

Lemma tables_ok_perm h ts ts' : ts ≡ₚ ts' → tables_ok h ts → tables_ok h ts'.
Proof.
  intros Hperm Hok. apply tables_ok_intro.
  - intros t Hin. apply (tables_ok_elem h ts); [done|by rewrite Hperm].
  - intros a d Hd. rewrite <- (holders_perm ts ts') by done.
    by apply (tables_ok_count h).
Qed.

(** *** Dropping an entry ([g_hash_table_remove], and the first half of a
    [g_hash_table_replace] that meets an equal key) *)

Lemma unref_shared h v d :
  h !! v = Some d → 2 ≤ ref_count d →
  gsk_sl_define_unref h v !! v
  = Some (with_ref_count d (ref_count d - 1)).
Proof.
  intros Hd Hrc. rewrite (unref_lookup_eq h v d) by done.
  rewrite decide_False by lia. done.
Qed.

(** What the tables other than [t] see of the define stored in [t]
    under [k] once [t] has dropped it. *)
Lemma drop_entry_shared h t rest k e d t2 k' e' :
  tables_ok h (t :: rest) → t !! k = Some e →
  h !! entry_value e = Some d →
  t2 ∈ rest → t2 !! k' = Some e' → entry_value e' = entry_value e →
  k' = k
  ∧ gsk_sl_define_unref h (entry_value e) !! entry_value e
    = Some (with_ref_count d (ref_count d - 1)).
Proof.
  intros Hok He Hd Hin He' Hsame.
  assert (table_ok h t) as Ht by (eapply tables_ok_elem; [done|left]).
  assert (table_ok h t2) as Ht2 by (eapply tables_ok_elem; [done|by right]).
  pose proof (tables_ok_count _ _ _ _ Hok Hd) as Hcount.
  rewrite holders_cons, (table_ok_holds h t k e d) in Hcount by done.
  rewrite <- Hsame in Hd.
  pose proof (table_ok_holds h t2 k' e' d Ht2 He' Hd) as Hholds.
  pose proof (holders_elem t2 rest (entry_value e') d Hin) as Hle.
  rewrite Hsame in *.
  split.
  - rewrite <- (table_ok_value_key h t k e d) by done.
    rewrite <- Hsame in Hd.
    by rewrite <- (table_ok_value_key h t2 k' e' d).
  - apply unref_shared; [done|lia].
Qed.

Lemma drop_entry_ok h t rest k e :
  tables_ok h (t :: rest) → t !! k = Some e →
  tables_ok (gsk_sl_define_unref h (entry_value e)) (delete k t :: rest).
Proof.
  intros Hok He.
  assert (table_ok h t) as Ht by (eapply tables_ok_elem; [done|left]).
  destruct (table_ok_lookup _ _ _ _ Ht He) as [Heta (d & Hd & Hname)].
  pose proof (tables_ok_count _ _ _ _ Hok Hd) as Hcount.
  rewrite holders_cons, (table_ok_holds h t k e d) in Hcount by done.
  apply tables_ok_intro.
  - intros t2 Hin. apply table_ok_intro. intros k' e' He'.
    apply elem_of_cons in Hin as [->|Hin].
    + apply lookup_delete_Some in He' as [Hne He'].
      destruct (table_ok_lookup _ _ _ _ Ht He') as [Heta' (d' & Hd' & Hname')].
      split; [by rewrite Heta'|]. exists d'. split; [|done].
      rewrite unref_lookup_ne; [done|]. intros Heq. rewrite Heq in Hd.
      congruence.
    + assert (table_ok h t2) as Ht2 by (eapply tables_ok_elem; [done|by right]).
      destruct (table_ok_lookup _ _ _ _ Ht2 He') as [Heta' (d' & Hd' & Hname')].
      split; [by rewrite Heta'|].
      destruct (decide (entry_value e' = entry_value e)) as [Heq|Hne].
      * destruct (drop_entry_shared h t rest k e d t2 k' e') as [-> Hlive];
          try done.
        rewrite Heq. eauto.
      * exists d'. by rewrite unref_lookup_ne.
  - intros a d' Hd'. rewrite holders_cons.
    destruct (decide (entry_value e = a)) as [<-|Hne].
    + rewrite (unref_lookup_eq h _ d) in Hd' by done.
      case_decide; [done|]. simplify_eq.
      rewrite holds_no by (simpl; rewrite lookup_delete_eq; done).
      rewrite (holders_name rest _ _ d) by done. simpl. lia.
    + rewrite unref_lookup_ne in Hd' by done.
      pose proof (tables_ok_count _ _ _ _ Hok Hd') as Hcount'.
      rewrite holders_cons in Hcount'.
      assert (holds (delete k t) a d' ≤ holds t a d'); [|lia].
      unfold holds. rewrite lookup_delete.
      destruct (decide (k = define_name d')); [|lia].
      rewrite decide_False by done. lia.
Qed.

(** The tables other than [t] go on showing what they showed. *)
Lemma drop_entry_frame h t rest k e t2 k' :
  tables_ok h (t :: rest) → t !! k = Some e → t2 ∈ rest →
  observe (gsk_sl_define_unref h (entry_value e)) t2 k' = observe h t2 k'.
Proof.
  intros Hok He Hin. unfold observe.
  destruct (t2 !! k') as [e'|] eqn:He'; [|done].
  assert (table_ok h t) as Ht by (eapply tables_ok_elem; [done|left]).
  destruct (table_ok_lookup _ _ _ _ Ht He) as [Heta (d & Hd & Hname)].
  destruct (decide (entry_value e' = entry_value e)) as [Heq|Hne].
  - destruct (drop_entry_shared h t rest k e d t2 k' e') as [-> Hlive];
      try done.
    by rewrite Heq, Hlive, Hd.
  - by rewrite unref_lookup_ne.
Qed.

(** *** Storing a define under a free key (the second half of
    [g_hash_table_replace]) *)

Lemma store_entry_ok h t rest k a d :
  tables_ok h (t :: rest) → t !! k = None →
  h !! a = Some d → define_name d = k →
  holders (t :: rest) a d + 1 ≤ ref_count d →
  tables_ok h (<[k := mkEntry a a]> t :: rest).
Proof.
  intros Hok Hfree Hd Hname Hspare.
  apply tables_ok_intro.
  - intros t2 Hin. apply elem_of_cons in Hin as [->|Hin];
      [|eapply tables_ok_elem; [done|by right]].
    assert (table_ok h t) as Ht by (eapply tables_ok_elem; [done|left]).
    apply table_ok_intro. intros k' e' He'.
    apply lookup_insert_Some in He' as [[<- <-]|[Hne He']]; [by eauto|].
    destruct (table_ok_lookup _ _ _ _ Ht He') as [Heta' Hlive].
    split; [by rewrite Heta'|done].
  - intros a' d' Hd'.
    pose proof (tables_ok_count _ _ _ _ Hok Hd') as Hcount'.
    rewrite holders_cons in *.
    destruct (decide (a' = a)) as [->|Hne].
    + simplify_eq. pose proof (holds_le_1 (<[define_name d := mkEntry a a]> t) a d).
      rewrite (holds_no t a d) in Hspare by (by rewrite Hfree). lia.
    + assert (holds (<[k := mkEntry a a]> t) a' d' ≤ holds t a' d'); [|lia].
      unfold holds. rewrite lookup_insert.
      destruct (decide (k = define_name d')); [|lia].
      rewrite decide_False by congruence. lia.
Qed.

(** *** Taking a reference *)

Lemma ref_ok h ts a d :
  tables_ok h ts → h !! a = Some d →
  tables_ok (gsk_sl_define_ref h a) ts
  ∧ gsk_sl_define_ref h a !! a = Some (with_ref_count d (S (ref_count d)))
  ∧ holders ts a (with_ref_count d (S (ref_count d))) + 1
    ≤ ref_count (with_ref_count d (S (ref_count d))).
Proof.
  intros Hok Hd.
  assert (gsk_sl_define_ref h a !! a
          = Some (with_ref_count d (S (ref_count d)))) as Hnew.
  { by rewrite ref_lookup_eq, Hd. }
  split; [|split; [done|]].
  - apply tables_ok_intro.
    + intros t Hin. apply table_ok_intro. intros k e He.
      assert (table_ok h t) as Ht by (by eapply tables_ok_elem).
      destruct (table_ok_lookup _ _ _ _ Ht He) as [Heta (d' & Hd' & Hname)].
      split; [by rewrite Heta|].
      destruct (decide (a = entry_value e)) as [->|Hne].
      * rewrite Hnew. simplify_eq. eauto.
      * exists d'. by rewrite ref_lookup_ne.
    + intros a' d' Hd'. destruct (decide (a = a')) as [<-|Hne].
      * rewrite Hnew in Hd'. simplify_eq. simpl.
        rewrite (holders_name ts a _ d) by done.
        pose proof (tables_ok_count _ _ _ _ Hok Hd). lia.
      * rewrite ref_lookup_ne in Hd' by done.
        by apply (tables_ok_count h).
  - rewrite (holders_name ts a _ d) by done. simpl.
    pose proof (tables_ok_count _ _ _ _ Hok Hd). lia.
Qed.

Lemma ref_frame h t a k :
  observe (gsk_sl_define_ref h a) t k = observe h t k.
Proof.
  unfold observe. destruct (t !! k) as [e|]; [|done].
  destruct (decide (a = entry_value e)) as [->|Hne].
  - rewrite ref_lookup_eq. by destruct (h !! entry_value e).
  - by rewrite ref_lookup_ne.
Qed.

(** *** Allocating a define *)

Lemma alloc_ok h ts a d :
  tables_ok h ts → h !! a = None →
  tables_ok (<[a := d]> h) ts ∧ holders ts a d = 0.
Proof.
  intros Hok Hfree.
  assert (∀ t k e, t ∈ ts → t !! k = Some e → entry_value e ≠ a) as Hne.
  { intros t k e Hin He Heq.
    assert (table_ok h t) as Ht by (by eapply tables_ok_elem).
    destruct (table_ok_lookup _ _ _ _ Ht He) as [_ (d' & Hd' & _)].
    congruence. }
  assert (holders ts a d = 0) as Hzero.
  { clear Hok. unfold holders. induction ts as [|t ts IH]; [done|]. simpl.
    rewrite IH by (intros; eapply Hne; [by right|done]).
    rewrite holds_no; [done|]. intros Ht.
    by apply (Hne t (define_name d) (mkEntry a a)); [left|..]. }
  split; [|done]. apply tables_ok_intro.
  - intros t Hin. apply table_ok_intro. intros k e He.
    assert (table_ok h t) as Ht by (by eapply tables_ok_elem).
    destruct (table_ok_lookup _ _ _ _ Ht He) as [Heta (d' & Hd' & Hname)].
    split; [by rewrite Heta|]. exists d'.
    rewrite lookup_insert_ne; [done|]. intros Heq. by eapply Hne.
  - intros a' d' Hd'. apply lookup_insert_Some in Hd' as [[<- <-]|[_ Hd']].
    + lia.
    + by apply (tables_ok_count h).
Qed.

Lemma alloc_frame h ts t a d k :
  tables_ok h ts → h !! a = None → t ∈ ts →
  observe (<[a := d]> h) t k = observe h t k.
Proof.
  intros Hok Hfree Hin. unfold observe.
  destruct (t !! k) as [e|] eqn:He; [|done].
  assert (table_ok h t) as Ht by (by eapply tables_ok_elem).
  destruct (table_ok_lookup _ _ _ _ Ht He) as [_ (d' & Hd' & _)].
  rewrite lookup_insert_ne; [done|]. congruence.
Qed.

End InvariantProperties.

(** ** The operations keep the invariant *)

Section OperationProperties.
Context `{SlLexer}.
Implicit Types (h : gmap addr GskSlDefine) (t : gmap string GHashEntry).
Implicit Types (ts rest : list (gmap string GHashEntry)).

Lemma fresh_free h : h !! fresh (dom h) = None.
Proof. apply not_elem_of_dom, is_fresh. Qed.

Lemma holds_delete t k a d : holds (delete k t) a d ≤ holds t a d.
Proof.
  unfold holds. rewrite lookup_delete.
  destruct (decide (k = define_name d)); [|lia].
  rewrite decide_False by done. lia.
Qed.

Lemma empty_table_ok h ts : tables_ok h ts → tables_ok h (∅ :: ts).
Proof.
  intros Hok. apply tables_ok_intro.
  - intros t Hin. apply elem_of_cons in Hin as [->|Hin];
      [|by eapply tables_ok_elem].
    apply table_ok_intro. intros k e He. by rewrite lookup_empty in He.
  - intros a d Hd. rewrite holders_cons, holds_no
      by (by rewrite lookup_empty).
    by apply (tables_ok_count h).
Qed.

Lemma tables_ok_init : tables_ok ∅ [defines gsk_sl_compiler_new].
Proof.
  apply empty_table_ok. apply tables_ok_intro.
  - intros t Hin. by apply elem_of_nil in Hin.
  - intros a d Hd. by rewrite lookup_empty in Hd.
Qed.

(** *** [g_hash_table_remove] *)

Lemma g_hash_table_remove_ok h t rest k :
  tables_ok h (t :: rest) →
  tables_ok (g_hash_table_remove h t k).1
    ((g_hash_table_remove h t k).2 :: rest).
Proof.
  intros Hok. unfold g_hash_table_remove.
  destruct (t !! k) as [e|] eqn:He; simpl; [|done].
  by apply drop_entry_ok.
Qed.

Lemma g_hash_table_remove_frame h t rest k t2 k' :
  tables_ok h (t :: rest) → t2 ∈ rest →
  observe (g_hash_table_remove h t k).1 t2 k' = observe h t2 k'.
Proof.
  intros Hok Hin. unfold g_hash_table_remove.
  destruct (t !! k) as [e|] eqn:He; simpl; [|done].
  by eapply drop_entry_frame.
Qed.

(** *** [g_hash_table_replace] of a define nobody holds yet *)

Lemma g_hash_table_replace_ok h t rest a d :
  tables_ok h (t :: rest) →
  h !! a = Some d → holders (t :: rest) a d = 0 → 1 ≤ ref_count d →
  tables_ok (g_hash_table_replace h t (define_name d) a a).1
    ((g_hash_table_replace h t (define_name d) a a).2 :: rest)
  ∧ (g_hash_table_replace h t (define_name d) a a).1 !! a = Some d.
Proof.
  intros Hok Hd Hzero Hrc. unfold g_hash_table_replace.
  destruct (t !! define_name d) as [old|] eqn:Hold; simpl.
  - assert (table_ok h t) as Ht by (eapply tables_ok_elem; [done|left]).
    destruct (table_ok_lookup _ _ _ _ Ht Hold) as [Heta (d0 & Hd0 & Hname)].
    assert (entry_value old ≠ a) as Hne.
    { intros Heq.
      assert (t !! define_name d = Some (mkEntry a a)) as Hholds
        by (by rewrite Hold, Heta, Heq).
      rewrite holders_cons, (holds_yes t a d) in Hzero by done. lia. }
    assert (gsk_sl_define_unref h (entry_value old) !! a = Some d) as Hlive.
    { by rewrite unref_lookup_ne. }
    split; [|done].
    rewrite <- insert_delete_eq.
    apply (store_entry_ok _ _ _ _ _ d); try done.
    + by apply drop_entry_ok.
    + apply lookup_delete_eq.
    + rewrite holders_cons in *. pose proof (holds_delete t (define_name d) a d).
      lia.
  - split; [|done]. apply (store_entry_ok _ _ _ _ _ d); try done. lia.
Qed.

Lemma g_hash_table_replace_frame h t rest k a t2 k' :
  tables_ok h (t :: rest) → t2 ∈ rest →
  observe (g_hash_table_replace h t k a a).1 t2 k' = observe h t2 k'.
Proof.
  intros Hok Hin. unfold g_hash_table_replace.
  destruct (t !! k) as [e|] eqn:He; simpl; [|done].
  by eapply drop_entry_frame.
Qed.

(** *** [gsk_sl_compiler_remove_define] *)

Lemma remove_define_ok h compiler rest name :
  tables_ok h (defines compiler :: rest) →
  tables_ok (gsk_sl_compiler_remove_define h compiler name).1
    (defines (gsk_sl_compiler_remove_define h compiler name).2 :: rest).
Proof.
  intros Hok. unfold gsk_sl_compiler_remove_define.
  pose proof (g_hash_table_remove_ok h (defines compiler) rest name Hok).
  by destruct (g_hash_table_remove _ _ _).
Qed.

Lemma remove_define_frame h compiler rest name t2 k :
  tables_ok h (defines compiler :: rest) → t2 ∈ rest →
  observe (gsk_sl_compiler_remove_define h compiler name).1 t2 k
  = observe h t2 k.
Proof.
  intros Hok Hin. unfold gsk_sl_compiler_remove_define.
  pose proof (g_hash_table_remove_frame h (defines compiler) rest name
                t2 k Hok Hin).
  by destruct (g_hash_table_remove _ _ _).
Qed.

(** *** [gsk_sl_compiler_add_define] *)

(** Whatever the tokenizer does, the loop touches the heap at the define
    under construction only, and only by appending tokens. *)
Lemma add_define_loop_heap fuel :
  ∀ h a d tokenizer err h' tokenizer' err',
    h !! a = Some d →
    add_define_loop fuel h a tokenizer err = Some (h', tokenizer', err') →
    ∃ body, h' = <[a := extended d body]> h.
Proof.
  induction fuel as [|fuel IH];
    intros h a d tokenizer err h' tokenizer' err' Hd Hloop;
    simpl in Hloop; [done|].
  destruct (gsk_sl_tokenizer_read_token tokenizer)
    as [[diags token] tokenizer1].
  destruct (gsk_sl_token_is_skipped token); [by eapply IH|].
  destruct (gsk_sl_token_is_eof token).
  - simplify_eq. exists []. by rewrite extended_nil, insert_id.
  - rewrite (add_token_insert _ _ d) in Hloop by done.
    eapply IH in Hloop as [body ->]; [|by rewrite lookup_insert_eq].
    exists ((gsk_sl_tokenizer_get_location tokenizer, token) :: body).
    by rewrite insert_insert_eq, extended_cons.
Qed.

(** The three ways [add_define] returns. *)
Lemma add_define_cases fuel h compiler name definition r :
  gsk_sl_compiler_add_define fuel h compiler name definition = Some r →
  (gsk_sl_string_is_valid_identifier name = false
   ∧ ∃ e, r = mkAddDefineResult h compiler false (Some e))
  ∨ (gsk_sl_string_is_valid_identifier name = true
     ∧ ∃ e, r = mkAddDefineResult h compiler false (Some e))
  ∨ (gsk_sl_string_is_valid_identifier name = true
     ∧ ∃ body,
         let a := fresh (dom h) in
         let h2 := <[a := mkDefine 1 name None body]> h in
         r = mkAddDefineResult
               (g_hash_table_replace h2 (defines compiler) name a a).1
               (mkCompiler
                  (g_hash_table_replace h2 (defines compiler) name a a).2)
               true None).
Proof.
  unfold gsk_sl_compiler_add_define.
  destruct (gsk_sl_string_is_valid_identifier name); simpl;
    [|intros [= <-]; left; eauto].
  intros Hrun. right.
  destruct (add_define_loop _ _ _ _ _) as [[[h2 tokenizer'] real_error]|]
    eqn:Hloop; [|done].
  apply add_define_loop_heap with (d := mkDefine 1 name None []) in Hloop
    as [body ->]; [|by rewrite lookup_insert_eq].
  rewrite insert_insert_eq in Hrun.
  destruct real_error as [e|].
  - left. split; [done|]. exists e. simplify_eq. f_equal.
    unfold gsk_sl_define_unref. rewrite lookup_insert_eq.
    rewrite decide_True by (simpl; lia).
    rewrite delete_insert_eq. apply delete_id, fresh_free.
  - right. split; [done|]. exists body. simpl.
    unfold gsk_sl_define_get_name in Hrun.
    rewrite lookup_insert_eq in Hrun. simpl in Hrun.
    destruct (g_hash_table_replace _ _ _ _ _) as [h3 table].
    by simplify_eq.
Qed.

Lemma add_define_ok fuel h compiler rest name definition r :
  tables_ok h (defines compiler :: rest) →
  gsk_sl_compiler_add_define fuel h compiler name definition = Some r →
  tables_ok (res_heap r) (defines (res_compiler r) :: rest).
Proof.
  intros Hok Hrun.
  apply add_define_cases in Hrun
    as [[_ [e ->]]|[[_ [e ->]]|[_ [body ->]]]]; try done.
  simpl.
  destruct (alloc_ok h (defines compiler :: rest) (fresh (dom h))
              (mkDefine 1 name None body) Hok (fresh_free h))
    as [Hok' Hzero].
  by apply (g_hash_table_replace_ok _ _ _ _ (mkDefine 1 name None body));
    [|rewrite lookup_insert_eq|..].
Qed.

Lemma add_define_frame fuel h compiler rest name definition r t2 k :
  tables_ok h (defines compiler :: rest) →
  gsk_sl_compiler_add_define fuel h compiler name definition = Some r →
  t2 ∈ rest →
  observe (res_heap r) t2 k = observe h t2 k.
Proof.
  intros Hok Hrun Hin.
  apply add_define_cases in Hrun
    as [[_ [e ->]]|[[_ [e ->]]|[_ [body ->]]]]; try done.
  simpl.
  destruct (alloc_ok h (defines compiler :: rest) (fresh (dom h))
              (mkDefine 1 name None body) Hok (fresh_free h))
    as [Hok' Hzero].
  rewrite (g_hash_table_replace_frame _ _ rest) by done.
  apply (alloc_frame h (defines compiler :: rest)); [done| |by right].
  apply fresh_free.
Qed.

(** *** Sequences of mutations *)

Lemma mutate_ok m h compiler rest h' compiler' :
  tables_ok h (defines compiler :: rest) →
  mutate m h compiler = Some (h', compiler') →
  tables_ok h' (defines compiler' :: rest)
  ∧ ∀ t2 k, t2 ∈ rest → observe h' t2 k = observe h t2 k.
Proof.
  intros Hok Hrun. destruct m as [fuel name definition|name]; simpl in Hrun.
  - destruct (gsk_sl_compiler_add_define _ _ _ _ _) as [r|] eqn:Hadd;
      [|done].
    simplify_eq. split; [by eapply add_define_ok|].
    intros t2 k Hin. by eapply add_define_frame.
  - injection Hrun as Hrun.
    pose proof (remove_define_ok h compiler rest name Hok) as Hok'.
    rewrite Hrun in Hok'. split; [done|].
    intros t2 k Hin.
    rewrite <- (remove_define_frame h compiler rest name t2 k) by done.
    by rewrite Hrun.
Qed.

Lemma mutate_all_ok ms :
  ∀ h compiler rest h' compiler',
    tables_ok h (defines compiler :: rest) →
    mutate_all ms h compiler = Some (h', compiler') →
    tables_ok h' (defines compiler' :: rest)
    ∧ ∀ t2 k, t2 ∈ rest → observe h' t2 k = observe h t2 k.
Proof.
  induction ms as [|m ms IH]; intros h compiler rest h' compiler' Hok Hrun;
    simpl in Hrun.
  - by simplify_eq.
  - destruct (mutate m h compiler) as [[h1 compiler1]|] eqn:Hm; [|done].
    destruct (mutate_ok _ _ _ _ _ _ Hok Hm) as [Hok1 Hframe1].
    destruct (IH _ _ _ _ _ Hok1 Hrun) as [Hok' Hframe'].
    split; [done|]. intros t2 k Hin.
    by rewrite Hframe', Hframe1.
Qed.

(** *** [gsk_sl_compiler_copy_defines] *)

Lemma copy_step_ok h cp ts t k e :
  tables_ok h (cp :: ts) → t ∈ ts → t !! k = Some e → cp !! k = None →
  tables_ok (gsk_sl_define_ref h (entry_value e)) (<[k := e]> cp :: ts).
Proof.
  intros Hok Hin He Hfree.
  assert (table_ok h t) as Ht by (eapply tables_ok_elem; [done|by right]).
  destruct (table_ok_lookup _ _ _ _ Ht He) as [Heta (d & Hd & Hname)].
  destruct (ref_ok h (cp :: ts) (entry_value e) d Hok Hd)
    as (Hok' & Hd' & Hspare).
  rewrite Heta.
  by eapply store_entry_ok.
Qed.

Lemma copy_fold_ok ts (l : list (string * GHashEntry)) :
  NoDup l.*1 →
  (∀ k e, (k, e) ∈ l → ∃ t, t ∈ ts ∧ t !! k = Some e) →
  ∀ h cp,
    (∀ k, k ∈ l.*1 → cp !! k = None) →
    tables_ok h (cp :: ts) →
    tables_ok (foldl copy_defines_step (h, cp) l).1
      ((foldl copy_defines_step (h, cp) l).2 :: ts).
Proof.
  induction l as [|[k e] l IH]; intros Hnd Hsrc h cp Hfree Hok; simpl;
    [done|].
  rewrite fmap_cons in Hnd, Hfree. simpl in Hnd, Hfree.
  apply NoDup_cons in Hnd as [Hk Hnd].
  destruct (Hsrc k e) as (t & Hin & He); [left|].
  unfold copy_defines_step at 2 4, g_hash_table_replace. simpl.
  rewrite (Hfree k) by left. rewrite entry_eta.
  apply IH;
    [done| | |apply (copy_step_ok h cp ts t k e); [done..|apply Hfree; left]].
  - intros k' e' Hin'. apply Hsrc. by right.
  - intros k' Hk'. rewrite lookup_insert_ne by (by intros ->).
    apply Hfree. by right.
Qed.

Lemma copy_defines_ok h compiler rest :
  tables_ok h (defines compiler :: rest) →
  tables_ok (gsk_sl_compiler_copy_defines h compiler).1
    ((gsk_sl_compiler_copy_defines h compiler).2 :: defines compiler :: rest).
Proof.
  intros Hok. unfold gsk_sl_compiler_copy_defines, copy_defines_from.
  apply copy_fold_ok.
  - apply NoDup_fst_map_to_list.
  - intros k e Hin. exists (defines compiler).
    split; [left|by apply elem_of_map_to_list].
  - intros k _. apply lookup_empty.
  - by apply empty_table_ok.
Qed.

(** Under the invariant every define of the table gains exactly one
    reference, and no other define changes. *)
Lemma refs_taken_entry h t k e :
  table_ok h t → t !! k = Some e →
  refs_taken (map_to_list t) (entry_value e) = 1.
Proof.
  intros Hok He. unfold refs_taken.
  set (l := filter _ _).
  assert (NoDup l) as Hnd.
  { apply NoDup_filter, NoDup_map_to_list. }
  assert ((k, e) ∈ l) as Hin.
  { apply list_elem_of_filter. split; [done|]. by apply elem_of_map_to_list. }
  assert (∀ x, x ∈ l → x = (k, e)) as Hall.
  { intros [k' e'] Hx. apply list_elem_of_filter in Hx as [Hv Hx]. simpl in Hv.
    apply elem_of_map_to_list in Hx.
    destruct (table_ok_lookup _ _ _ _ Hok He) as [Heta (d & Hd & Hname)].
    destruct (table_ok_lookup _ _ _ _ Hok Hx) as [Heta' (d' & Hd' & Hname')].
    rewrite Hv in Hd'. assert (k' = k) as -> by congruence.
    congruence. }
  destruct l as [|x [|y l]]; simpl; [by apply elem_of_nil in Hin|done|].
  exfalso. apply NoDup_cons in Hnd as [Hx _]. apply Hx.
  rewrite (Hall x) by left. rewrite (Hall y) by (right; left). left.
Qed.

Lemma refs_taken_none t a :
  (∀ k e, t !! k = Some e → entry_value e ≠ a) →
  refs_taken (map_to_list t) a = 0.
Proof.
  intros Hnone. unfold refs_taken.
  destruct (filter _ _) as [|[k e] l] eqn:Hl; [done|].
  assert ((k, e) ∈ filter (λ kv, entry_value kv.2 = a) (map_to_list t))
    as Hin by (rewrite Hl; left).
  apply list_elem_of_filter in Hin as [Hv Hin]. simpl in Hv.
  apply elem_of_map_to_list in Hin. by destruct (Hnone k e).
Qed.

End OperationProperties.

(** ** The claims about [add_define] *)

Section AddDefineClaims.
Context `{SlLexer}.
Implicit Types (h : gmap addr GskSlDefine) (t : gmap string GHashEntry).
Implicit Types (ts rest : list (gmap string GHashEntry)).

Lemma captured_fatal d :
  diag_fatal d = true →
  captured d
  = Some (mkGError (domain (diag_error d)) (code (diag_error d))
            (g_strdup_printf location_format
               [ArgSize (gsize_add (lines (diag_location d)) 1);
                ArgSize (line_bytes (diag_location d))]
             +:+ message (diag_error d))).
Proof.
  intros Hfatal. unfold captured, gsk_sl_compiler_add_define_error_func.
  by rewrite Hfatal.
Qed.

Lemma first_fatal_is_fatal evs d :
  first_fatal evs = Some d → diag_fatal d = true.
Proof. intros Hfind. by apply List.find_some in Hfind as [_ ?]. Qed.

(** The loop on the tokenizer [add_define] creates. *)
Lemma add_define_tokenizes fuel h compiler name definition evs final :
  eof_not_skipped →
  gsk_sl_string_is_valid_identifier name = true →
  tokenization fuel (define_tokenizer definition) = Some (evs, final) →
  gsk_sl_compiler_add_define fuel h compiler name definition
  = let a := fresh (dom h) in
    let h2 := <[a := mkDefine 1 name None (macro_body evs)]> h in
    match first_fatal evs with
    | Some d =>
        Some (mkAddDefineResult h compiler false (captured d))
    | None =>
        Some (mkAddDefineResult
                (g_hash_table_replace h2 (defines compiler) name a a).1
                (mkCompiler
                   (g_hash_table_replace h2 (defines compiler) name a a).2)
                true None)
    end.
Proof.
  intros Heof Hvalid Htok. unfold gsk_sl_compiler_add_define.
  rewrite Hvalid. simpl.
  change (gsk_sl_tokenizer_new _) with (define_tokenizer definition).
  rewrite (add_define_loop_spec fuel Heof _ _ (mkDefine 1 name None []) _ _
             evs final) by (done || by rewrite lookup_insert_eq).
  rewrite insert_insert_eq, error_func_first_fatal.
  unfold extended. simpl. fold (first_fatal evs).
  destruct (first_fatal evs) as [d|] eqn:Hfirst.
  - rewrite (captured_fatal d) by (by eapply first_fatal_is_fatal).
    unfold g_propagate_error. do 2 f_equal.
    unfold gsk_sl_define_unref. rewrite lookup_insert_eq.
    rewrite decide_True by (simpl; lia).
    rewrite delete_insert_eq. apply delete_id, fresh_free.
  - unfold gsk_sl_define_get_name. rewrite lookup_insert_eq. simpl.
    by destruct (g_hash_table_replace _ _ _ _ _).
Qed.

(** C2.  For a valid identifier [name] and a definition whose
    tokenization reports no fatal diagnostic, [add_define] returns [TRUE]
    with no error; afterwards the table maps [name] to a define named
    [name] whose body is the tokenization without the skippable tokens and
    without EOF, each token with the location it starts at, and a copy of
    the table taken then maps [name] to that same define. *)
Theorem add_define_stores_macro_body fuel h compiler rest name definition
  evs final :
  eof_not_skipped →
  tables_ok h (defines compiler :: rest) →
  gsk_sl_string_is_valid_identifier name = true →
  tokenization fuel (define_tokenizer definition) = Some (evs, final) →
  first_fatal evs = None →
  ∃ r a,
    gsk_sl_compiler_add_define fuel h compiler name definition = Some r
    ∧ res_ok r = true
    ∧ res_error r = None
    ∧ defines (res_compiler r) !! name = Some (mkEntry a a)
    ∧ res_heap r !! a = Some (mkDefine 1 name None (macro_body evs))
    ∧ (gsk_sl_compiler_copy_defines (res_heap r) (res_compiler r)).2 !! name
      = Some (mkEntry a a)
    ∧ (gsk_sl_compiler_copy_defines (res_heap r) (res_compiler r)).1 !! a
      = Some (mkDefine 2 name None (macro_body evs)).
Proof.
  intros Heof Hok Hvalid Htok Hnofatal.
  pose proof (add_define_tokenizes fuel h compiler name definition evs final
                Heof Hvalid Htok) as Hrun.
  rewrite Hnofatal in Hrun. simpl in Hrun.
  set (a := fresh (dom h)) in *.
  set (d := mkDefine 1 name None (macro_body evs)) in *.
  destruct (alloc_ok h (defines compiler :: rest) a d Hok (fresh_free h))
    as [Hok2 Hzero].
  destruct (g_hash_table_replace_ok (<[a := d]> h) (defines compiler) rest
              a d Hok2) as [Hok3 Hlive];
    [by rewrite lookup_insert_eq|done|simpl; lia|].
  simpl in Hok3, Hlive.
  eexists _, a. split; [exact Hrun|]. simpl.
  assert ((g_hash_table_replace (<[a := d]> h) (defines compiler) name a a).2
          !! name = Some (mkEntry a a)) as Hentry.
  { unfold g_hash_table_replace.
    destruct (defines compiler !! name); simpl; by rewrite lookup_insert_eq. }
  repeat split; try done.
  - by rewrite copy_defines_table.
  - rewrite copy_defines_heap, Hlive. simpl.
    assert (table_ok (g_hash_table_replace (<[a := d]> h) (defines compiler)
                        name a a).1
              (g_hash_table_replace (<[a := d]> h) (defines compiler)
                 name a a).2) as Ht
      by (eapply tables_ok_elem; [exact Hok3|left]).
    pose proof (refs_taken_entry _ _ name (mkEntry a a) Ht Hentry) as Hone.
    simpl in Hone. by rewrite Hone.
Qed.

(** C3.  When the tokenization of the definition reports a fatal
    diagnostic, [add_define] returns [FALSE], the heap is as before the
    call (the define under construction is gone), the compiler and its
    table are unchanged, and the error handed to the caller is the first
    fatal diagnostic's error with its message prefixed by the line number
    plus one right-justified to width 3, a colon, the byte column
    right-justified to width 2, a colon and a space. *)
Theorem add_define_fatal_error fuel h compiler name definition evs final
  diag :
  eof_not_skipped →
  gsk_sl_string_is_valid_identifier name = true →
  tokenization fuel (define_tokenizer definition) = Some (evs, final) →
  first_fatal evs = Some diag →
  (lines (diag_location diag) + 1 < gsize_modulus)%N →
  ∃ line col,
    right_justified 3 (decimal (lines (diag_location diag) + 1)) line
    ∧ right_justified 2 (decimal (line_bytes (diag_location diag))) col
    ∧ gsk_sl_compiler_add_define fuel h compiler name definition
      = Some (mkAddDefineResult h compiler false
                (Some (mkGError (domain (diag_error diag))
                         (code (diag_error diag))
                         (line +:+ ":" +:+ col +:+ ": "
                          +:+ message (diag_error diag))))).
Proof.
  intros Heof Hvalid Htok Hfirst Hsmall.
  destruct (captured_format diag) as (line & col & Hline & Hcol & Hcaptured);
    [by eapply first_fatal_is_fatal|done|].
  exists line, col. split; [done|]. split; [done|].
  rewrite (add_define_tokenizes fuel h compiler name definition evs final)
    by done.
  rewrite Hfirst. simpl. by rewrite Hcaptured.
Qed.

(** C8.  For a name that is not a valid identifier [add_define] returns
    [FALSE] with the invalid-identifier error, whatever the definition;
    it does so without a single read of a tokenizer (no fuel is needed)
    and leaves the heap and the table as they were. *)
Theorem add_define_invalid_identifier fuel h compiler name definition :
  gsk_sl_string_is_valid_identifier name = false →
  gsk_sl_compiler_add_define fuel h compiler name definition
  = Some (mkAddDefineResult h compiler false
            (Some (mkGError G_FILE_ERROR G_FILE_ERROR_FAILED
                     ("Define name " +:+ dquote +:+ name +:+ dquote
                      +:+ " is not a valid identifier"))))
  ∧ gsk_sl_compiler_add_define 0 h compiler name definition
    = gsk_sl_compiler_add_define fuel h compiler name definition.
Proof.
  intros Hinvalid. unfold gsk_sl_compiler_add_define. rewrite Hinvalid.
  simpl. unfold g_set_error. by rewrite format_invalid_identifier.
Qed.

(** C9 (amended).  A fatal diagnostic does not end the token loop: the
    loop performs every read of the tokenization up to the EOF token,
    appends every token that is neither skippable nor EOF to the define,
    whether read before or after a fatal diagnostic, and keeps the first
    fatal diagnostic's error; with fuel for fewer reads it does not
    return. *)
Theorem add_define_loop_runs_to_eof fuel h a d tokenizer evs final :
  eof_not_skipped →
  h !! a = Some d →
  tokenization fuel tokenizer = Some (evs, final) →
  add_define_loop fuel h a tokenizer None
  = Some (<[a := extended d (macro_body evs)]> h, final,
          match first_fatal evs with
          | Some diag => captured diag
          | None => None
          end)
  ∧ ∀ fuel', fuel' < length evs →
      add_define_loop fuel' h a tokenizer None = None.
Proof.
  intros Heof Hd Htok. split.
  - rewrite (add_define_loop_spec fuel Heof h a d tokenizer None evs final)
      by done.
    by rewrite error_func_first_fatal.
  - intros fuel' Hlt. by eapply add_define_loop_needs_fuel.
Qed.

End AddDefineClaims.

Lemma toy_eof_not_skipped : @eof_not_skipped Toy.lexer.
Proof. by intros []. Qed.

Lemma toy_tables_ok_foo : tables_ok Toy.foo_heap [defines Toy.foo_compiler].
Proof. refine (bool_decide_unpack _ _). vm_compute. exact I. Qed.

Lemma add_define_stores_macro_body_witness :
  ∃ r a,
    gsk_sl_compiler_add_define 10 Toy.foo_heap Toy.foo_compiler "BAR"
      (Some "a b") = Some r
    ∧ res_ok r = true
    ∧ res_error r = None
    ∧ defines (res_compiler r) !! "BAR" = Some (mkEntry a a)
    ∧ res_heap r !! a
      = Some (mkDefine 1 "BAR" None (macro_body Toy.ab_events))
    ∧ (gsk_sl_compiler_copy_defines (res_heap r) (res_compiler r)).2 !! "BAR"
      = Some (mkEntry a a)
    ∧ (gsk_sl_compiler_copy_defines (res_heap r) (res_compiler r)).1 !! a
      = Some (mkDefine 2 "BAR" None (macro_body Toy.ab_events)).
Proof.
  apply (add_define_stores_macro_body 10 Toy.foo_heap Toy.foo_compiler []
           "BAR" (Some "a b") Toy.ab_events
           (Toy.mkTokenizer "" (mkLocation 0 3))
           toy_eof_not_skipped toy_tables_ok_foo).
  - reflexivity.
  - reflexivity.
  - reflexivity.
Defined.

Lemma add_define_fatal_error_witness :
  ∃ line col,
    right_justified 3 (decimal 1) line
    ∧ right_justified 2 (decimal 2) col
    ∧ gsk_sl_compiler_add_define 10 Toy.foo_heap Toy.foo_compiler "BAR"
        (Some Toy.a_dollar_b)
      = Some (mkAddDefineResult Toy.foo_heap Toy.foo_compiler false
                (Some (mkGError "gsk-sl-compiler-error-quark" 0
                         (line +:+ ":" +:+ col +:+ ": "
                          +:+ "Unexpected character")))).
Proof.
  apply (add_define_fatal_error 10 Toy.foo_heap Toy.foo_compiler "BAR"
           (Some Toy.a_dollar_b) Toy.a_dollar_b_events
           (Toy.mkTokenizer "" (mkLocation 0 4)) Toy.dollar_diagnostic
           toy_eof_not_skipped).
  - reflexivity.
  - reflexivity.
  - reflexivity.
  - reflexivity.
Defined.

Lemma add_define_invalid_identifier_witness :
  gsk_sl_compiler_add_define 10 Toy.foo_heap Toy.foo_compiler "1bad"
    (Some "a b")
  = Some (mkAddDefineResult Toy.foo_heap Toy.foo_compiler false
            (Some (mkGError G_FILE_ERROR G_FILE_ERROR_FAILED
                     ("Define name " +:+ dquote +:+ "1bad" +:+ dquote
                      +:+ " is not a valid identifier"))))
  ∧ gsk_sl_compiler_add_define 0 Toy.foo_heap Toy.foo_compiler "1bad"
      (Some "a b")
    = gsk_sl_compiler_add_define 10 Toy.foo_heap Toy.foo_compiler "1bad"
        (Some "a b").
Proof.
  apply (add_define_invalid_identifier 10 Toy.foo_heap Toy.foo_compiler
           "1bad" (Some "a b")).
  reflexivity.
Defined.

Lemma add_define_loop_runs_to_eof_witness :
  add_define_loop 10 Toy.foo_heap 1%positive
    (define_tokenizer (Some Toy.a_dollar_b)) None
  = Some (<[1%positive :=
             extended Toy.foo_define (macro_body Toy.a_dollar_b_events)]>
            Toy.foo_heap,
          Toy.mkTokenizer "" (mkLocation 0 4),
          match first_fatal Toy.a_dollar_b_events with
          | Some diag => captured diag
          | None => None
          end)
  ∧ ∀ fuel', fuel' < length Toy.a_dollar_b_events →
      add_define_loop fuel' Toy.foo_heap 1%positive
        (define_tokenizer (Some Toy.a_dollar_b)) None = None.
Proof.
  apply (add_define_loop_runs_to_eof 10 Toy.foo_heap 1%positive _
           (define_tokenizer (Some Toy.a_dollar_b)) Toy.a_dollar_b_events
           (Toy.mkTokenizer "" (mkLocation 0 4)) toy_eof_not_skipped).
  - reflexivity.
  - reflexivity.
Defined.

(** C9 as stated fails.  On the definition [$b] the first read reports a
    fatal diagnostic; the loop nevertheless goes on to read [b] and the
    EOF token, and appends [b] to the define. *)
Lemma fatal_does_not_abort_read_loop :
  existsb diag_fatal (Toy.read_token Toy.dollar_b_tokenizer).1.1 = true
  ∧ (Toy.read_token Toy.dollar_b_tokenizer).2
    = Toy.mkTokenizer "b" (mkLocation 0 1)
  ∧ add_define_loop (H := Toy.lexer) 10 Toy.foo_heap 1%positive
      Toy.dollar_b_tokenizer None
    = Some (<[1%positive :=
               with_token (H := Toy.lexer) (mkLocation 0 1) (Toy.TChar "b")
                 Toy.foo_define]> Toy.foo_heap,
            Toy.mkTokenizer "" (mkLocation 0 2),
            captured (mkDiagnostic true (mkLocation 0 0) Toy.lexical_error))
  ∧ ¬ @fatal_aborts_read_loop Toy.lexer.
Proof.
  assert (add_define_loop (H := Toy.lexer) 10 Toy.foo_heap 1%positive
            Toy.dollar_b_tokenizer None
          = Some (<[1%positive :=
                     with_token (H := Toy.lexer) (mkLocation 0 1)
                       (Toy.TChar "b") Toy.foo_define]> Toy.foo_heap,
                  Toy.mkTokenizer "" (mkLocation 0 2),
                  captured
                    (mkDiagnostic true (mkLocation 0 0) Toy.lexical_error)))
    as Hrun by reflexivity.
  split; [reflexivity|]. split; [reflexivity|]. split; [exact Hrun|].
  intros Habort.
  destruct (Habort 10 Toy.foo_heap 1%positive Toy.dollar_b_tokenizer _ _ _
              eq_refl Hrun) as [Hfinal _].
  discriminate Hfinal.
Qed.

(** ** The claims about the table and its copies *)

Section TableClaims.
Context `{SlLexer}.
Implicit Types (h : gmap addr GskSlDefine) (t : gmap string GHashEntry).
Implicit Types (ts rest : list (gmap string GHashEntry)).

(** C4.  [copy_defines] returns a table with the keys and the stored
    pointers of the compiler's table; each define of the table gains one
    reference and nothing else in the heap changes, so the copy shows
    what the table shows.  Whatever sequence of [add_define] and
    [remove_define] is then applied to the compiler, the copy shows at
    every key the name and body it showed before; and whatever such
    sequence is applied to the copy, the compiler's table does. *)
Theorem copy_defines_independent h compiler rest :
  tables_ok h (defines compiler :: rest) →
  let h1 := (gsk_sl_compiler_copy_defines h compiler).1 in
  let copy := (gsk_sl_compiler_copy_defines h compiler).2 in
  copy = defines compiler
  ∧ (∀ k e, defines compiler !! k = Some e →
       ∃ d, h !! entry_value e = Some d
            ∧ h1 !! entry_value e
              = Some (with_ref_count d (S (ref_count d))))
  ∧ (∀ a, (∀ k e, defines compiler !! k = Some e → entry_value e ≠ a) →
       h1 !! a = h !! a)
  ∧ (∀ k, observe h1 copy k = observe h (defines compiler) k)
  ∧ (∀ ms h2 compiler2,
       mutate_all ms h1 compiler = Some (h2, compiler2) →
       ∀ k, observe h2 copy k = observe h1 copy k)
  ∧ (∀ ms h2 compiler2,
       mutate_all ms h1 (mkCompiler copy) = Some (h2, compiler2) →
       ∀ k, observe h2 (defines compiler) k
            = observe h1 (defines compiler) k).
Proof.
  intros Hok h1 copy.
  assert (table_ok h (defines compiler)) as Ht
    by (eapply tables_ok_elem; [done|left]).
  pose proof (copy_defines_ok h compiler rest Hok) as Hok1.
  fold h1 copy in Hok1.
  assert (copy = defines compiler) as Hcopy by apply copy_defines_table.
  assert (∀ a, h1 !! a
               = (λ d, with_ref_count d
                         (ref_count d
                          + refs_taken (map_to_list (defines compiler)) a))
                 <$> h !! a) as Hheap by apply copy_defines_heap.
  split; [done|]. split; [|split; [|split; [|split]]].
  - intros k e He.
    destruct (table_ok_lookup _ _ _ _ Ht He) as [_ (d & Hd & _)].
    exists d. split; [done|].
    rewrite Hheap, Hd, (refs_taken_entry h _ k e) by done. simpl.
    by rewrite Nat.add_1_r.
  - intros a Hnone. rewrite Hheap, refs_taken_none by done.
    destruct (h !! a) as [d|]; [|done]. simpl.
    by rewrite Nat.add_0_r, with_ref_count_same.
  - intros k. rewrite Hcopy. unfold observe.
    destruct (defines compiler !! k) as [e|]; [|done].
    rewrite Hheap. by destruct (h !! entry_value e).
  - intros ms h2 compiler2 Hrun k.
    assert (tables_ok h1 (defines compiler :: copy :: rest)) as Hok1'.
    { eapply tables_ok_perm; [|exact Hok1]. apply Permutation_swap. }
    destruct (mutate_all_ok ms _ _ _ _ _ Hok1' Hrun) as [_ Hframe].
    apply Hframe. left.
  - intros ms h2 compiler2 Hrun k.
    destruct (mutate_all_ok ms h1 (mkCompiler copy)
                (defines compiler :: rest) _ _ Hok1 Hrun) as [_ Hframe].
    apply Hframe. left.
Qed.

(** C10.  In a heap whose tables satisfy the invariant, every key of
    every table is the name of the define stored under it, the stored key
    pointer being that define's own name; [add_define] and
    [remove_define] applied to any of the tables, and [copy_defines]
    with the copy it adds, keep the invariant. *)
Theorem table_keys_are_define_names h ts1 t ts2 :
  tables_ok h (ts1 ++ t :: ts2) →
  (∀ t' k e, t' ∈ ts1 ++ t :: ts2 → t' !! k = Some e →
     entry_key e = entry_value e
     ∧ ∃ d, h !! entry_value e = Some d ∧ define_name d = k)
  ∧ (∀ fuel name definition r,
       gsk_sl_compiler_add_define fuel h (mkCompiler t) name definition
       = Some r →
       tables_ok (res_heap r) (ts1 ++ defines (res_compiler r) :: ts2))
  ∧ (∀ name,
       tables_ok (gsk_sl_compiler_remove_define h (mkCompiler t) name).1
         (ts1
          ++ defines (gsk_sl_compiler_remove_define h (mkCompiler t) name).2
          :: ts2))
  ∧ tables_ok (gsk_sl_compiler_copy_defines h (mkCompiler t)).1
      (ts1 ++ t :: (gsk_sl_compiler_copy_defines h (mkCompiler t)).2 :: ts2).
Proof.
  intros Hok.
  assert (tables_ok h (defines (mkCompiler t) :: ts1 ++ ts2)) as Hhead.
  { eapply tables_ok_perm; [|exact Hok]. symmetry. apply Permutation_middle. }
  split; [|split; [|split]].
  - intros t' k e Hin He.
    assert (table_ok h t') as Ht'
      by (by apply (tables_ok_elem h (ts1 ++ t :: ts2))).
    destruct (table_ok_lookup _ _ _ _ Ht' He) as [Heta Hlive].
    split; [by rewrite Heta|done].
  - intros fuel name definition r Hrun.
    eapply tables_ok_perm; [apply Permutation_middle|].
    by eapply add_define_ok.
  - intros name.
    eapply tables_ok_perm; [apply Permutation_middle|].
    by apply remove_define_ok.
  - eapply tables_ok_perm;
      [|exact (copy_defines_ok h (mkCompiler t) (ts1 ++ ts2) Hhead)].
    simpl. rewrite Permutation_swap.
    etrans; [apply perm_skip, Permutation_middle|apply Permutation_middle].
Qed.

End TableClaims.

Lemma copy_defines_independent_witness :
  Toy.foo_copy.2 = defines Toy.foo_compiler
  ∧ (∀ k e, defines Toy.foo_compiler !! k = Some e →
       ∃ d, Toy.foo_heap !! entry_value e = Some d
            ∧ Toy.foo_copy.1 !! entry_value e
              = Some (with_ref_count d (S (ref_count d))))
  ∧ (∀ a, (∀ k e, defines Toy.foo_compiler !! k = Some e →
                  entry_value e ≠ a) →
       Toy.foo_copy.1 !! a = Toy.foo_heap !! a)
  ∧ (∀ k, observe Toy.foo_copy.1 Toy.foo_copy.2 k
          = observe Toy.foo_heap (defines Toy.foo_compiler) k)
  ∧ (∀ ms h2 compiler2,
       mutate_all ms Toy.foo_copy.1 Toy.foo_compiler = Some (h2, compiler2) →
       ∀ k, observe h2 Toy.foo_copy.2 k
            = observe Toy.foo_copy.1 Toy.foo_copy.2 k)
  ∧ (∀ ms h2 compiler2,
       mutate_all ms Toy.foo_copy.1 (mkCompiler Toy.foo_copy.2)
       = Some (h2, compiler2) →
       ∀ k, observe h2 (defines Toy.foo_compiler) k
            = observe Toy.foo_copy.1 (defines Toy.foo_compiler) k).
Proof.
  apply (copy_defines_independent Toy.foo_heap Toy.foo_compiler []).
  refine (bool_decide_unpack _ _). vm_compute. exact I.
Defined.

(** Redefining [FOO] after a copy was taken: the copy still shows the old
    body, the compiler's table the new one. *)
Example redefine_after_copy :
  ∃ r,
    gsk_sl_compiler_add_define 10 Toy.foo_copy.1 Toy.foo_compiler "FOO"
      (Some "b") = Some r
    ∧ observe (res_heap r) Toy.foo_copy.2 "FOO"
      = Some ("FOO", [(mkLocation 0 0, Toy.TChar "a");
                      (mkLocation 0 2, Toy.TChar "b")])
    ∧ observe (res_heap r) (defines (res_compiler r)) "FOO"
      = Some ("FOO", [(mkLocation 0 0, Toy.TChar "b")]).
Proof. eexists. split; [reflexivity|]. split; reflexivity. Qed.

Lemma table_keys_are_define_names_witness :
  (∀ t' k e, t' ∈ [] ++ defines Toy.foo_compiler :: [] → t' !! k = Some e →
     entry_key e = entry_value e
     ∧ ∃ d, Toy.foo_heap !! entry_value e = Some d ∧ define_name d = k)
  ∧ (∀ fuel name definition r,
       gsk_sl_compiler_add_define fuel Toy.foo_heap
         (mkCompiler (defines Toy.foo_compiler)) name definition
       = Some r →
       tables_ok (res_heap r) ([] ++ defines (res_compiler r) :: []))
  ∧ (∀ name,
       tables_ok
         (gsk_sl_compiler_remove_define Toy.foo_heap
            (mkCompiler (defines Toy.foo_compiler)) name).1
         ([] ++ defines
                  (gsk_sl_compiler_remove_define Toy.foo_heap
                     (mkCompiler (defines Toy.foo_compiler)) name).2
             :: []))
  ∧ tables_ok
      (gsk_sl_compiler_copy_defines Toy.foo_heap
         (mkCompiler (defines Toy.foo_compiler))).1
      ([] ++ defines Toy.foo_compiler
          :: (gsk_sl_compiler_copy_defines Toy.foo_heap
                (mkCompiler (defines Toy.foo_compiler))).2 :: []).
Proof.
  apply (table_keys_are_define_names Toy.foo_heap [] (defines Toy.foo_compiler)
           []).
  refine (bool_decide_unpack _ _). vm_compute. exact I.
Defined.

(** ** The error domains *)

(** C7 (the code at the failing inputs).  The two domains the compiler
    defines are distinct, but neither carries the errors of this file:
    the invalid-identifier error of [add_define] and the search-path
    error of [resolve_include] are both raised in [G_FILE_ERROR]. *)
Theorem compiler_errors_are_file_errors :
  gsk_sl_compiler_error_quark ≠ gsk_sl_compiler_warning_quark
  ∧ (∃ e,
       res_error
       <$> gsk_sl_compiler_add_define (H := Toy.lexer) 0 ∅
             gsk_sl_compiler_new "1bad" (Some "x")
       = Some (Some e)
       ∧ domain e = G_FILE_ERROR
       ∧ domain e ≠ gsk_sl_compiler_error_quark
       ∧ domain e ≠ gsk_sl_compiler_warning_quark)
  ∧ (∀ (fs : FileSystem) compiler source name,
       ∃ e,
         (gsk_sl_compiler_resolve_include compiler source false name).2
         = Some e
         ∧ domain e = G_FILE_ERROR
         ∧ domain e ≠ gsk_sl_compiler_error_quark
         ∧ domain e ≠ gsk_sl_compiler_warning_quark).
Proof.
  split; [done|]. split.
  - eexists. split; [reflexivity|]. by simpl.
  - intros fs compiler source name. eexists. split; [reflexivity|]. by simpl.
Qed.

(** ** Further properties of include resolution *)

Section IncludeOutcomes.
Context `{FileSystem}.

(** X1.  [resolve_include] returns [NULL] without setting an error in
    exactly one situation: a local include whose base source has no
    backing file. *)
Theorem resolve_include_silent_iff compiler source local name :
  gsk_sl_compiler_resolve_include compiler source local name = (None, None)
  ↔ local = true ∧ gsk_code_source_get_file source = None.
Proof.
  unfold gsk_sl_compiler_resolve_include.
  destruct local; [|by split; [|intros [? _]]].
  destruct source as [file|display_name bytes]; simpl; [|done].
  destruct (g_file_load_contents _); split; (done || by intros [_ ?]).
Qed.

(** X2.  A source is returned exactly for a local include against a
    file-backed base whose sibling [name] loads; the source returned is
    the file [name] resolved against the parent of the base file, it
    loads, and no error is set with it. *)
Theorem resolve_include_success_iff compiler source local name result err :
  gsk_sl_compiler_resolve_include compiler source local name
  = (Some result, err)
  ↔ local = true
    ∧ err = None
    ∧ ∃ file bytes,
        source = SourceFile file
        ∧ result
          = SourceFile
              (g_file_resolve_relative_path (g_file_get_parent file) name)
        ∧ gsk_code_source_load result = inl bytes.
Proof.
  unfold gsk_sl_compiler_resolve_include.
  destruct local; [|by split; [|intros [? _]]].
  destruct source as [file|display_name bytes]; simpl.
  - unfold gsk_code_source_new_for_file.
    destruct (g_file_load_contents _) as [bytes|e] eqn:Hload; split.
    + intros [= <- <-]. repeat split. exists file, bytes. by simpl.
    + intros (_ & -> & file' & bytes' & [= <-] & -> & _). done.
    + done.
    + intros (_ & -> & file' & bytes' & [= <-] & -> & Hload').
      simpl in Hload'. congruence.
  - split; [done|]. by intros (_ & _ & file & bytes' & ? & _).
Qed.

(** X3.  An error is set exactly when the include is not local (the
    search-path error) or when the sibling file of a file-backed base
    fails to load (the loader's error, passed on unchanged); no source is
    returned with it. *)
Theorem resolve_include_error_iff compiler source local name result e :
  gsk_sl_compiler_resolve_include compiler source local name
  = (result, Some e)
  ↔ result = None
    ∧ ((local = false
        ∧ e = mkGError G_FILE_ERROR G_FILE_ERROR_EXIST
                ("Could not resolve " +:+ dquote +:+ name +:+ dquote
                 +:+ " in search path."))
       ∨ (local = true
          ∧ ∃ file,
              source = SourceFile file
              ∧ g_file_load_contents
                  (g_file_resolve_relative_path (g_file_get_parent file)
                     name) = inr e)).
Proof.
  unfold gsk_sl_compiler_resolve_include, g_set_error.
  rewrite format_search_path.
  destruct local.
  - destruct source as [file|display_name bytes]; simpl.
    + destruct (g_file_load_contents _) as [bytes|e'] eqn:Hload; split.
      * done.
      * intros (_ & [[? _]|(_ & file' & [= <-] & Hload')]); congruence.
      * intros [= <- <-]. split; [done|]. right. split; [done|]. by exists file.
      * intros (-> & [[? _]|(_ & file' & [= <-] & Hload')]); congruence.
    + split; [done|]. intros (_ & [[? _]|(_ & file' & ? & _)]); done.
  - split.
    + intros [= <- <-]. split; [done|]. by left.
    + intros (-> & [[_ ->]|[? _]]); done.
Qed.

End IncludeOutcomes.

(** The three outcomes on a file system with one directory. *)
Example resolve_include_on_one_directory :
  @gsk_sl_compiler_resolve_include Toy.one_directory
    gsk_sl_compiler_new (SourceFile "dir/main.glsl") true "common.glsl"
  = (Some (SourceFile "dir/common.glsl"), None)
  ∧ @gsk_sl_compiler_resolve_include Toy.one_directory
      gsk_sl_compiler_new (SourceFile "dir/main.glsl") true "missing.glsl"
    = (None, Some Toy.not_found)
  ∧ @gsk_sl_compiler_resolve_include Toy.one_directory
      gsk_sl_compiler_new (SourceBytes "<program>" "x") true "common.glsl"
    = (None, None).
Proof. repeat split. Qed.

(** ** Further properties of define management *)

Section DefineManagement.
Context `{SlLexer}.
Implicit Types (h : gmap addr GskSlDefine) (t : gmap string GHashEntry).
Implicit Types (ts rest : list (gmap string GHashEntry)).

Lemma compiler_eta (compiler : GskSlCompiler) :
  mkCompiler (defines compiler) = compiler.
Proof. by destruct compiler. Qed.

Lemma remove_define_table h compiler name :
  defines (gsk_sl_compiler_remove_define h compiler name).2
  = delete name (defines compiler).
Proof.
  unfold gsk_sl_compiler_remove_define, g_hash_table_remove.
  destruct (defines compiler !! name) eqn:Hname; simpl; [done|].
  by rewrite delete_id.
Qed.

(** X4.  [remove_define] of a name the table does not hold changes
    neither the heap nor the compiler; in general the table afterwards is
    the table without that key, every other key keeping its entry, and
    removing the same name a second time changes nothing more. *)
Theorem remove_define_absent_and_again h compiler name :
  (defines compiler !! name = None →
   gsk_sl_compiler_remove_define h compiler name = (h, compiler))
  ∧ defines (gsk_sl_compiler_remove_define h compiler name).2 !! name = None
  ∧ (∀ k, k ≠ name →
       defines (gsk_sl_compiler_remove_define h compiler name).2 !! k
       = defines compiler !! k)
  ∧ gsk_sl_compiler_remove_define
      (gsk_sl_compiler_remove_define h compiler name).1
      (gsk_sl_compiler_remove_define h compiler name).2 name
    = gsk_sl_compiler_remove_define h compiler name.
Proof.
  assert (∀ h' c', defines c' !! name = None →
            gsk_sl_compiler_remove_define h' c' name = (h', c')) as Habsent.
  { intros h' c' Hnone.
    unfold gsk_sl_compiler_remove_define, g_hash_table_remove.
    rewrite Hnone. by rewrite compiler_eta. }
  split; [apply Habsent|].
  assert (defines (gsk_sl_compiler_remove_define h compiler name).2 !! name
          = None) as Hgone
    by (rewrite remove_define_table; apply lookup_delete_eq).
  split; [done|]. split.
  - intros k Hne. rewrite remove_define_table. by apply lookup_delete_ne.
  - rewrite (Habsent _ _ Hgone). by destruct (gsk_sl_compiler_remove_define _ _ _).
Qed.

(** X5.  Whatever [add_define] returns, it returns [TRUE] exactly when it
    sets no error; and when it returns [FALSE] the heap and the compiler
    are what they were before the call. *)
Theorem add_define_all_or_nothing fuel h compiler name definition r :
  gsk_sl_compiler_add_define fuel h compiler name definition = Some r →
  (res_ok r = true ↔ res_error r = None)
  ∧ (res_ok r = false → res_heap r = h ∧ res_compiler r = compiler).
Proof.
  intros Hrun.
  apply add_define_cases in Hrun
    as [[_ [e ->]]|[[_ [e ->]]|[_ [body ->]]]]; simpl; by repeat split.
Qed.

(** The table after a successful [add_define]. *)
Lemma add_define_success_state fuel h compiler name definition r :
  gsk_sl_compiler_add_define fuel h compiler name definition = Some r →
  res_ok r = true →
  ∃ body,
    let a := fresh (dom h) in
    let h2 := <[a := mkDefine 1 name None body]> h in
    defines (res_compiler r) = <[name := mkEntry a a]> (defines compiler)
    ∧ res_heap r
      = match defines compiler !! name with
        | Some old => gsk_sl_define_unref h2 (entry_value old)
        | None => h2
        end.
Proof.
  intros Hrun Hok.
  apply add_define_cases in Hrun
    as [[_ [e ->]]|[[_ [e ->]]|[_ [body ->]]]]; try done.
  exists body. simpl. unfold g_hash_table_replace.
  by destruct (defines compiler !! name).
Qed.

(** X6.  A successful [add_define] changes the table at the defined name
    only: the key set grows by that name at most, every other key keeps
    its entry, and shows the name and body it showed before. *)
Theorem add_define_touches_one_key fuel h compiler name definition r :
  table_ok h (defines compiler) →
  gsk_sl_compiler_add_define fuel h compiler name definition = Some r →
  res_ok r = true →
  dom (defines (res_compiler r)) = {[name]} ∪ dom (defines compiler)
  ∧ ∀ k, k ≠ name →
      defines (res_compiler r) !! k = defines compiler !! k
      ∧ observe (res_heap r) (defines (res_compiler r)) k
        = observe h (defines compiler) k.
Proof.
  intros Ht Hrun Hok.
  destruct (add_define_success_state _ _ _ _ _ _ Hrun Hok)
    as (body & Htable & Hheap). simpl in Htable, Hheap.
  rewrite Htable. split; [apply dom_insert_L|].
  intros k Hne.
  assert (<[name := mkEntry (fresh (dom h)) (fresh (dom h))]>
            (defines compiler) !! k = defines compiler !! k) as Hk
    by (by apply lookup_insert_ne).
  split; [done|]. unfold observe. rewrite Hk.
  destruct (defines compiler !! k) as [e|] eqn:He; [|done].
  destruct (table_ok_lookup _ _ _ _ Ht He) as [_ (d & Hd & Hname)].
  assert (entry_value e ≠ fresh (dom h)) as Hfresh.
  { intros Heq. rewrite Heq, fresh_free in Hd. done. }
  rewrite Hheap.
  destruct (defines compiler !! name) as [old|] eqn:Hold.
  - destruct (table_ok_lookup _ _ _ _ Ht Hold) as [_ (d0 & Hd0 & Hname0)].
    rewrite unref_lookup_ne, lookup_insert_ne by congruence. done.
  - by rewrite lookup_insert_ne.
Qed.

(** X7.  Redefining a name drops the table's reference to the define it
    supersedes: that define is destroyed when the reference was its last
    one, and otherwise lives on, unchanged but for the count, for the
    tables that still hold it. *)
Theorem add_define_releases_superseded fuel h compiler name definition r
  old d :
  gsk_sl_compiler_add_define fuel h compiler name definition = Some r →
  res_ok r = true →
  defines compiler !! name = Some old →
  h !! entry_value old = Some d →
  res_heap r !! entry_value old
  = if decide (ref_count d ≤ 1) then None
    else Some (with_ref_count d (ref_count d - 1)).
Proof.
  intros Hrun Hok Hold Hd.
  destruct (add_define_success_state _ _ _ _ _ _ Hrun Hok)
    as (body & _ & Hheap). simpl in Hheap.
  rewrite Hold in Hheap. rewrite Hheap.
  apply unref_lookup_eq. rewrite lookup_insert_ne; [done|].
  intros Heq. rewrite <- Heq, fresh_free in Hd. done.
Qed.

Lemma unref_insert_fresh h a d v :
  h !! a = None → a ≠ v →
  delete a (gsk_sl_define_unref (<[a := d]> h) v) = gsk_sl_define_unref h v.
Proof.
  intros Hfree Hne. apply map_eq. intros i. rewrite lookup_delete.
  destruct (decide (a = i)) as [<-|Hai].
  - by rewrite unref_lookup_ne.
  - destruct (decide (v = i)) as [<-|Hvi].
    + destruct (h !! v) as [d0|] eqn:Hd0.
      * rewrite (unref_lookup_eq _ v d0), (unref_lookup_eq h v d0); try done.
        by rewrite lookup_insert_ne.
      * unfold gsk_sl_define_unref.
        rewrite lookup_insert_ne, Hd0 by done. by rewrite lookup_insert_ne.
    + by rewrite !unref_lookup_ne, lookup_insert_ne.
Qed.

(** X8.  Removing a name right after defining it undoes the definition:
    heap and compiler are what removing the name from the state before
    the [add_define] gives, which is that very state when the name was
    not defined. *)
Theorem add_then_remove_define fuel h compiler name definition r :
  table_ok h (defines compiler) →
  gsk_sl_compiler_add_define fuel h compiler name definition = Some r →
  res_ok r = true →
  gsk_sl_compiler_remove_define (res_heap r) (res_compiler r) name
  = gsk_sl_compiler_remove_define h compiler name.
Proof.
  intros Ht Hrun Hok.
  destruct (add_define_success_state _ _ _ _ _ _ Hrun Hok)
    as (body & Htable & Hheap). simpl in Htable, Hheap.
  set (a := fresh (dom h)) in *.
  set (d := mkDefine 1 name None body) in *.
  unfold gsk_sl_compiler_remove_define, g_hash_table_remove.
  rewrite Htable, lookup_insert_eq, delete_insert_eq. simpl.
  assert (res_heap r !! a = Some d) as Hlive.
  { rewrite Hheap. destruct (defines compiler !! name) as [old|] eqn:Hold.
    - destruct (table_ok_lookup _ _ _ _ Ht Hold) as [_ (d0 & Hd0 & _)].
      rewrite unref_lookup_ne; [by rewrite lookup_insert_eq|].
      intros Heq. subst a. rewrite Heq, fresh_free in Hd0. done.
    - by rewrite lookup_insert_eq. }
  assert (gsk_sl_define_unref (res_heap r) a = delete a (res_heap r)) as ->.
  { unfold gsk_sl_define_unref. rewrite Hlive.
    by rewrite decide_True by (simpl; lia). }
  rewrite Hheap.
  destruct (defines compiler !! name) as [old|] eqn:Hold.
  - destruct (table_ok_lookup _ _ _ _ Ht Hold) as [_ (d0 & Hd0 & _)].
    rewrite unref_insert_fresh; [done|apply fresh_free|].
    intros Heq. subst a. rewrite <- Heq, fresh_free in Hd0. done.
  - by rewrite delete_insert_eq, !delete_id by (done || apply fresh_free).
Qed.

(** X9.  Over any sequence of invocations the error callback keeps an
    error that is already stored, ignores every non-fatal diagnostic, and
    otherwise stores the first fatal diagnostic's error, its domain and
    code intact. *)
Theorem error_func_stores_first_fatal real_error diags :
  foldl gsk_sl_compiler_add_define_error_func real_error diags
  = match real_error with
    | Some e => Some e
    | None =>
        match List.find diag_fatal diags with
        | Some d => captured d
        | None => None
        end
    end
  ∧ ∀ d,
      if diag_fatal d then
        ∃ e, captured d = Some e
             ∧ domain e = domain (diag_error d)
             ∧ code e = code (diag_error d)
      else captured d = None.
Proof.
  split.
  - destruct real_error as [e|];
      [apply error_func_keeps_first|apply error_func_first_fatal].
  - intros d. destruct (diag_fatal d) eqn:Hfatal.
    + rewrite (captured_fatal d Hfatal). by eexists.
    + unfold captured, gsk_sl_compiler_add_define_error_func.
      by rewrite Hfatal.
Qed.

End DefineManagement.

(** ** Disposal and the life time of defines *)

Section DisposalProperties.
Context `{SlLexer}.
Implicit Types (h : gmap addr GskSlDefine) (t : gmap string GHashEntry).
Implicit Types (ts rest : list (gmap string GHashEntry)).

(** What a run of unrefs leaves at an address: the define loses as many
    references as entries store it, and is gone once none is left. *)
Lemma destroy_from_lookup (l : list (string * GHashEntry)) :
  ∀ h a,
    destroy_from h l !! a
    = if decide (refs_taken l a = 0) then h !! a
      else
        match h !! a with
        | Some d =>
            if decide (ref_count d ≤ refs_taken l a) then None
            else Some (with_ref_count d (ref_count d - refs_taken l a))
        | None => None
        end.
Proof.
  unfold destroy_from.
  induction l as [|kv l IH]; intros h a; simpl; [done|].
  rewrite IH, refs_taken_cons.
  destruct (decide (entry_value kv.2 = a)) as [Hv|Hv].
  - rewrite Hv. rewrite (decide_False (P := 1 + _ = 0)) by lia.
    destruct (h !! a) as [d|] eqn:Hd.
    + rewrite (unref_lookup_eq h a d Hd).
      destruct (decide (ref_count d ≤ 1)) as [Hlast|Hmore].
      * rewrite (decide_True (P := ref_count d ≤ 1 + _)) by lia.
        by destruct (decide (refs_taken l a = 0)).
      * destruct (decide (refs_taken l a = 0)) as [Hzero|Hpos].
        -- rewrite Hzero, (decide_False (P := ref_count d ≤ 1 + 0)) by lia.
           by rewrite Nat.add_0_r.
        -- simpl. destruct (decide (ref_count d - 1 ≤ refs_taken l a)).
           ++ by rewrite decide_True by lia.
           ++ rewrite decide_False by lia. unfold with_ref_count. simpl.
              do 2 f_equal. lia.
    + assert (gsk_sl_define_unref h a !! a = None) as ->.
      { unfold gsk_sl_define_unref. by rewrite Hd. }
      by destruct (decide (refs_taken l a = 0)).
  - rewrite unref_lookup_ne by done. simpl.
    by destruct (decide (refs_taken l a = 0)).
Qed.

(** Under [table_ok] an address is stored by one entry of the table or by
    none. *)
Lemma refs_taken_cases h t a :
  table_ok h t →
  (refs_taken (map_to_list t) a = 0
   ∧ ∀ k e, t !! k = Some e → entry_value e ≠ a)
  ∨ (refs_taken (map_to_list t) a = 1
     ∧ ∃ d, h !! a = Some d ∧ t !! define_name d = Some (mkEntry a a)).
Proof.
  intros Ht.
  destruct (filter (λ kv : string * GHashEntry, entry_value kv.2 = a)
              (map_to_list t)) as [|[k e] l] eqn:Hl.
  - left. split; [unfold refs_taken; by rewrite Hl|].
    intros k e He Hv.
    assert ((k, e) ∈ filter (λ kv : string * GHashEntry,
                               entry_value kv.2 = a) (map_to_list t)) as Hin.
    { apply list_elem_of_filter. split; [done|]. by apply elem_of_map_to_list. }
    rewrite Hl in Hin. by apply elem_of_nil in Hin.
  - right.
    assert ((k, e) ∈ filter (λ kv : string * GHashEntry,
                               entry_value kv.2 = a) (map_to_list t)) as Hin
      by (rewrite Hl; left).
    apply list_elem_of_filter in Hin as [Hv Hin]. simpl in Hv.
    apply elem_of_map_to_list in Hin.
    destruct (table_ok_lookup _ _ _ _ Ht Hin) as [Heta (d & Hd & Hname)].
    subst a. split; [by apply (refs_taken_entry h t k e)|].
    exists d. split; [done|]. by rewrite Hname, Hin, Heta at 1.
Qed.

Lemma tables_ok_tail h t rest : tables_ok h (t :: rest) → tables_ok h rest.
Proof.
  intros Hok. apply tables_ok_intro.
  - intros t2 Hin. eapply tables_ok_elem; [done|by right].
  - intros a d Hd. pose proof (tables_ok_count _ _ _ _ Hok Hd) as Hcount.
    rewrite holders_cons in Hcount. lia.
Qed.

(** What [g_hash_table_destroy] leaves at an address, under the
    invariant. *)
Lemma destroy_lookup h t rest a :
  tables_ok h (t :: rest) →
  g_hash_table_destroy h t !! a
  = match h !! a with
    | Some d =>
        if decide (t !! define_name d = Some (mkEntry a a)) then
          if decide (ref_count d ≤ 1) then None
          else Some (with_ref_count d (ref_count d - 1))
        else Some d
    | None => None
    end.
Proof.
  intros Hok.
  assert (table_ok h t) as Ht by (eapply tables_ok_elem; [done|left]).
  unfold g_hash_table_destroy. rewrite destroy_from_lookup.
  destruct (refs_taken_cases h t a Ht) as [[-> Hnone]|[-> (d & Hd & Hheld)]].
  - rewrite decide_True by done. destruct (h !! a) as [d|] eqn:Hd; [|done].
    rewrite decide_False; [done|]. intros Hheld.
    by apply (Hnone _ _ Hheld).
  - rewrite decide_False by lia. rewrite Hd.
    by rewrite (decide_True (P := t !! define_name d = Some _)).
Qed.

(** X10.  Disposing of a compiler drops one reference of each define of
    its table and nothing else: the other tables of the heap (copies
    taken earlier) still satisfy the invariant and show at every key the
    name and body they showed. *)
Theorem dispose_keeps_copies h compiler rest :
  tables_ok h (defines compiler :: rest) →
  tables_ok (gsk_sl_compiler_dispose h compiler) rest
  ∧ ∀ t2 k, t2 ∈ rest →
      observe (gsk_sl_compiler_dispose h compiler) t2 k = observe h t2 k.
Proof.
  intros Hok. unfold gsk_sl_compiler_dispose.
  set (t := defines compiler) in *.
  assert (table_ok h t) as Ht by (eapply tables_ok_elem; [done|left]).
  assert (∀ t2 k e d, t2 ∈ rest → t2 !! k = Some e →
            h !! entry_value e = Some d →
            ∃ d', g_hash_table_destroy h t !! entry_value e = Some d'
                  ∧ define_name d' = define_name d
                  ∧ define_tokens d' = define_tokens d) as Hlive.
  { intros t2 k e d Hin He Hd.
    rewrite (destroy_lookup h t rest) by done. rewrite Hd.
    destruct (decide (t !! define_name d
                      = Some (mkEntry (entry_value e) (entry_value e))))
      as [Hheld|]; [|by eauto].
    assert (table_ok h t2) as Ht2 by (eapply tables_ok_elem; [done|by right]).
    pose proof (tables_ok_count _ _ _ _ Hok Hd) as Hcount.
    rewrite holders_cons, (holds_yes t _ d Hheld) in Hcount.
    pose proof (holders_elem t2 rest (entry_value e) d Hin) as Hle.
    rewrite (table_ok_holds h t2 k e d) in Hle by done.
    rewrite decide_False by lia. by eauto. }
  split.
  - apply tables_ok_intro.
    + intros t2 Hin. apply table_ok_intro. intros k e He.
      assert (table_ok h t2) as Ht2 by (eapply tables_ok_elem; [done|by right]).
      destruct (table_ok_lookup _ _ _ _ Ht2 He) as [Heta (d & Hd & Hname)].
      split; [by rewrite Heta|].
      destruct (Hlive t2 k e d Hin He Hd) as (d' & Hd' & Hname' & _).
      exists d'. split; [done|congruence].
    + intros a d' Hd'. rewrite (destroy_lookup h t rest) in Hd' by done.
      destruct (h !! a) as [d|] eqn:Hd; [|done].
      pose proof (tables_ok_count _ _ _ _ Hok Hd) as Hcount.
      rewrite holders_cons in Hcount.
      destruct (decide (t !! define_name d = Some (mkEntry a a))) as [Hheld|].
      * destruct (decide (ref_count d ≤ 1)); [done|]. simplify_eq.
        rewrite (holds_yes t a d Hheld) in Hcount.
        rewrite (holders_name rest a _ d) by done. simpl. lia.
      * simplify_eq. lia.
  - intros t2 k Hin. unfold observe.
    destruct (t2 !! k) as [e|] eqn:He; [|done].
    assert (table_ok h t2) as Ht2 by (eapply tables_ok_elem; [done|by right]).
    destruct (table_ok_lookup _ _ _ _ Ht2 He) as [_ (d & Hd & _)].
    destruct (Hlive t2 k e d Hin He Hd) as (d' & Hd' & Hname' & Htokens').
    by rewrite Hd', Hd, Hname', Htokens'.
Qed.

(** X11.  Destroying a copy gives back the references the copy took:
    [copy_defines] followed by [g_hash_table_destroy] of the copy leaves
    the heap exactly as it was. *)
Theorem copy_then_destroy h compiler rest :
  tables_ok h (defines compiler :: rest) →
  g_hash_table_destroy (gsk_sl_compiler_copy_defines h compiler).1
    (gsk_sl_compiler_copy_defines h compiler).2
  = h.
Proof.
  intros Hok.
  assert (table_ok h (defines compiler)) as Ht
    by (eapply tables_ok_elem; [done|left]).
  rewrite copy_defines_table. apply map_eq. intros a.
  unfold g_hash_table_destroy. rewrite destroy_from_lookup, copy_defines_heap.
  destruct (refs_taken_cases h _ a Ht) as [[-> _]|[-> (d & Hd & Hheld)]].
  - rewrite decide_True by done. destruct (h !! a) as [d|]; [|done]. simpl.
    by rewrite Nat.add_0_r, with_ref_count_same.
  - rewrite decide_False by lia. rewrite Hd. simpl.
    pose proof (tables_ok_count _ _ _ _ Hok Hd) as Hcount.
    rewrite holders_cons, (holds_yes _ a d Hheld) in Hcount.
    rewrite decide_False by lia. unfold with_ref_count. simpl.
    destruct d. simpl in *. do 2 f_equal. lia.
Qed.

(** X12.  The result of [copy_defines] and the heap [g_hash_table_destroy]
    leaves do not depend on the order in which the entries of the table
    are visited. *)
Theorem iteration_order_is_immaterial h t (l : list (string * GHashEntry)) :
  l ≡ₚ map_to_list t →
  copy_defines_from h l = gsk_sl_compiler_copy_defines h (mkCompiler t)
  ∧ destroy_from h l = g_hash_table_destroy h t.
Proof.
  intros Hperm. split; [by apply copy_defines_any_order|].
  assert (∀ a, refs_taken l a = refs_taken (map_to_list t) a) as Hrefs.
  { intros a. unfold refs_taken. by rewrite Hperm. }
  apply map_eq. intros a. unfold g_hash_table_destroy.
  by rewrite !destroy_from_lookup, Hrefs.
Qed.

(** X13.  Two copies taken one after the other are the same table, that
    of the compiler; each define of the table has gained two references,
    and the invariant holds of the heap with both copies. *)
Theorem copy_defines_twice h compiler rest :
  tables_ok h (defines compiler :: rest) →
  let first := gsk_sl_compiler_copy_defines h compiler in
  let second := gsk_sl_compiler_copy_defines first.1 compiler in
  second.2 = first.2
  ∧ first.2 = defines compiler
  ∧ (∀ k e, defines compiler !! k = Some e →
       ∃ d, h !! entry_value e = Some d
            ∧ second.1 !! entry_value e
              = Some (with_ref_count d (ref_count d + 2)))
  ∧ tables_ok second.1 (second.2 :: first.2 :: defines compiler :: rest).
Proof.
  intros Hok first second.
  assert (table_ok h (defines compiler)) as Ht
    by (eapply tables_ok_elem; [done|left]).
  pose proof (copy_defines_ok h compiler rest Hok) as Hok1.
  fold first in Hok1.
  assert (tables_ok first.1 (defines compiler :: first.2 :: rest)) as Hok1'.
  { eapply tables_ok_perm; [|exact Hok1]. apply Permutation_swap. }
  pose proof (copy_defines_ok first.1 compiler _ Hok1') as Hok2.
  fold second in Hok2.
  split; [by unfold first, second; rewrite !copy_defines_table|].
  split; [apply copy_defines_table|]. split.
  - intros k e He.
    destruct (table_ok_lookup _ _ _ _ Ht He) as [_ (d & Hd & _)].
    exists d. split; [done|]. unfold second, first.
    rewrite !copy_defines_heap, Hd, (refs_taken_entry h _ k e) by done.
    simpl. unfold with_ref_count. simpl. do 2 f_equal. lia.
  - eapply tables_ok_perm; [|exact Hok2].
    apply perm_skip, Permutation_swap.
Qed.

(** *** A compiler that shares its defines with nobody *)

Lemma owned_tables_ok h t : owned h t → tables_ok h [t].
Proof.
  intros [Ht Hexact]. apply tables_ok_intro.
  - intros t2 Hin. apply list_elem_of_singleton in Hin. by subst.
  - intros a d Hd. destruct (Hexact a d Hd) as [-> _].
    unfold holders. simpl. pose proof (holds_le_1 t a d). lia.
Qed.

Lemma owned_intro h t :
  tables_ok h [t] →
  (∀ a d, h !! a = Some d →
     ref_count d = 1 ∧ t !! define_name d = Some (mkEntry a a)) →
  owned h t.
Proof.
  intros Hok Hexact. split; [|done].
  eapply tables_ok_elem; [done|left].
Qed.

Lemma owned_init : owned ∅ (defines gsk_sl_compiler_new).
Proof.
  apply owned_intro; [apply tables_ok_init|].
  intros a d Hd. by rewrite lookup_empty in Hd.
Qed.

Lemma remove_define_owned h compiler name :
  owned h (defines compiler) →
  owned (gsk_sl_compiler_remove_define h compiler name).1
    (defines (gsk_sl_compiler_remove_define h compiler name).2).
Proof.
  intros Hown. pose proof (owned_tables_ok _ _ Hown) as Hok.
  destruct Hown as [Ht Hexact].
  apply owned_intro; [by apply remove_define_ok|].
  rewrite remove_define_table.
  unfold gsk_sl_compiler_remove_define, g_hash_table_remove.
  destruct (defines compiler !! name) as [old|] eqn:Hold; simpl.
  - destruct (table_ok_lookup _ _ _ _ Ht Hold) as [Heta (d0 & Hd0 & Hname0)].
    destruct (Hexact _ _ Hd0) as [Hone _].
    intros a d Hd.
    destruct (decide (entry_value old = a)) as [<-|Hne].
    + rewrite (unref_lookup_eq h _ d0 Hd0), decide_True in Hd by lia. done.
    + rewrite unref_lookup_ne in Hd by done.
      destruct (Hexact a d Hd) as [Hrc Hheld]. split; [done|].
      rewrite lookup_delete_ne; [done|]. intros Heq.
      rewrite <- Heq, Hold, Heta in Hheld. congruence.
  - intros a d Hd. destruct (Hexact a d Hd) as [Hrc Hheld]. split; [done|].
    rewrite lookup_delete_ne; [done|]. intros Heq. congruence.
Qed.

Lemma add_define_owned fuel h compiler name definition r :
  owned h (defines compiler) →
  gsk_sl_compiler_add_define fuel h compiler name definition = Some r →
  owned (res_heap r) (defines (res_compiler r)).
Proof.
  intros Hown Hrun. pose proof (owned_tables_ok _ _ Hown) as Hok.
  apply owned_intro; [by eapply add_define_ok|].
  destruct Hown as [Ht Hexact].
  apply add_define_cases in Hrun
    as [[_ [e ->]]|[[_ [e ->]]|[_ [body ->]]]]; try done.
  simpl. unfold g_hash_table_replace.
  set (a := fresh (dom h)). set (d := mkDefine 1 name None body).
  assert (∀ a' d', a' ≠ a → h !! a' = Some d' → define_name d' ≠ name →
            ref_count d' = 1
            ∧ <[name := mkEntry a a]> (defines compiler) !! define_name d'
              = Some (mkEntry a' a')) as Hother.
  { intros a' d' Hne Hd' Hname. destruct (Hexact a' d' Hd') as [Hrc Hheld].
    split; [done|]. by rewrite lookup_insert_ne. }
  destruct (defines compiler !! name) as [old|] eqn:Hold; simpl.
  - destruct (table_ok_lookup _ _ _ _ Ht Hold) as [Heta (d0 & Hd0 & Hname0)].
    destruct (Hexact _ _ Hd0) as [Hone _].
    assert (entry_value old ≠ a) as Hva.
    { intros Heq. subst a. rewrite Heq, fresh_free in Hd0. done. }
    intros a' d' Hd'.
    destruct (decide (entry_value old = a')) as [<-|Hne].
    + rewrite (unref_lookup_eq _ _ d0), decide_True in Hd'
        by (lia || by rewrite lookup_insert_ne). done.
    + rewrite unref_lookup_ne in Hd' by done.
      apply lookup_insert_Some in Hd' as [[<- <-]|[Hne' Hd']].
      * simpl. by rewrite lookup_insert_eq.
      * apply Hother; [done..|]. intros Hname.
        destruct (Hexact a' d' Hd') as [_ Hheld].
        rewrite Hname, Hold, Heta in Hheld. congruence.
  - intros a' d' Hd'.
    apply lookup_insert_Some in Hd' as [[<- <-]|[Hne' Hd']].
    + simpl. by rewrite lookup_insert_eq.
    + apply Hother; [done..|]. intros Hname.
      destruct (Hexact a' d' Hd') as [_ Hheld]. congruence.
Qed.

Lemma mutate_all_owned ms :
  ∀ h compiler h' compiler',
    owned h (defines compiler) →
    mutate_all ms h compiler = Some (h', compiler') →
    owned h' (defines compiler').
Proof.
  induction ms as [|m ms IH]; intros h compiler h' compiler' Hown Hrun;
    simpl in Hrun; [by simplify_eq|].
  destruct (mutate m h compiler) as [[h1 compiler1]|] eqn:Hm; [|done].
  apply (IH h1 compiler1); [|done].
  destruct m as [fuel name definition|name]; simpl in Hm.
  - destruct (gsk_sl_compiler_add_define _ _ _ _ _) as [r|] eqn:Hadd;
      [|done].
    simplify_eq. by eapply add_define_owned.
  - injection Hm as Hm.
    pose proof (remove_define_owned h compiler name Hown) as Hown'.
    by rewrite Hm in Hown'.
Qed.

Lemma dispose_owned h compiler :
  owned h (defines compiler) → gsk_sl_compiler_dispose h compiler = ∅.
Proof.
  intros Hown. pose proof (owned_tables_ok _ _ Hown) as Hok.
  destruct Hown as [Ht Hexact].
  apply map_eq. intros a. unfold gsk_sl_compiler_dispose.
  rewrite (destroy_lookup h _ []) by done. rewrite lookup_empty.
  destruct (h !! a) as [d|] eqn:Hd; [|done].
  destruct (Hexact a d Hd) as [Hrc Hheld].
  rewrite decide_True by done. by rewrite decide_True by lia.
Qed.

(** X14.  No define leaks: after any sequence of [add_define] and
    [remove_define] calls on a new compiler, successful or not, the heap
    holds exactly the defines of the table, each with one reference, and
    disposing of the compiler releases every one of them. *)
Theorem compiler_releases_all_defines ms h compiler :
  mutate_all ms ∅ gsk_sl_compiler_new = Some (h, compiler) →
  (∀ a d, h !! a = Some d →
     ref_count d = 1
     ∧ defines compiler !! define_name d = Some (mkEntry a a))
  ∧ (∀ k e, defines compiler !! k = Some e →
       ∃ d, h !! entry_value e = Some d ∧ define_name d = k)
  ∧ gsk_sl_compiler_dispose h compiler = ∅.
Proof.
  intros Hrun.
  pose proof (mutate_all_owned ms _ _ _ _ owned_init Hrun) as Hown.
  split; [by destruct Hown as [_ Hexact]|].
  split; [|by apply dispose_owned].
  destruct Hown as [Ht _]. intros k e He.
  by destruct (table_ok_lookup _ _ _ _ Ht He) as [_ ?].
Qed.

End DisposalProperties.

(** ** The properties above on the small lexer *)

Lemma toy_table_ok_foo : table_ok Toy.foo_heap (defines Toy.foo_compiler).
Proof. refine (bool_decide_unpack _ _). vm_compute. exact I. Qed.

Lemma toy_tables_ok_foo_copy :
  tables_ok Toy.foo_copy.1 [defines Toy.foo_compiler; Toy.foo_copy.2].
Proof. refine (bool_decide_unpack _ _). vm_compute. exact I. Qed.

Lemma toy_bar_added :
  gsk_sl_compiler_add_define 10 Toy.foo_heap Toy.foo_compiler "BAR" (Some "b")
  = Some Toy.bar_added.
Proof. reflexivity. Qed.

Lemma toy_foo_redefined :
  gsk_sl_compiler_add_define 10 Toy.foo_heap Toy.foo_compiler "FOO" (Some "b")
  = Some Toy.foo_redefined.
Proof. reflexivity. Qed.

Lemma toy_baz_failed :
  gsk_sl_compiler_add_define 10 Toy.foo_heap Toy.foo_compiler "BAZ"
    (Some "a $b")
  = Some Toy.baz_failed.
Proof. reflexivity. Qed.

Lemma add_define_all_or_nothing_witness :
  (res_ok Toy.baz_failed = true ↔ res_error Toy.baz_failed = None)
  ∧ (res_ok Toy.baz_failed = false →
     res_heap Toy.baz_failed = Toy.foo_heap
     ∧ res_compiler Toy.baz_failed = Toy.foo_compiler).
Proof.
  exact (add_define_all_or_nothing 10 Toy.foo_heap Toy.foo_compiler "BAZ"
           (Some "a $b") Toy.baz_failed toy_baz_failed).
Defined.

Lemma add_define_touches_one_key_witness :
  dom (defines (res_compiler Toy.bar_added))
  = {["BAR"]} ∪ dom (defines Toy.foo_compiler)
  ∧ ∀ k, k ≠ "BAR" →
      defines (res_compiler Toy.bar_added) !! k
      = defines Toy.foo_compiler !! k
      ∧ observe (res_heap Toy.bar_added)
          (defines (res_compiler Toy.bar_added)) k
        = observe Toy.foo_heap (defines Toy.foo_compiler) k.
Proof.
  apply (add_define_touches_one_key 10 Toy.foo_heap Toy.foo_compiler "BAR"
           (Some "b") Toy.bar_added toy_table_ok_foo toy_bar_added).
  reflexivity.
Defined.

Lemma add_define_releases_superseded_witness :
  res_heap Toy.foo_redefined !! 1%positive
  = if decide (ref_count Toy.foo_define ≤ 1) then None
    else Some (with_ref_count Toy.foo_define (ref_count Toy.foo_define - 1)).
Proof.
  apply (add_define_releases_superseded 10 Toy.foo_heap Toy.foo_compiler
           "FOO" (Some "b") Toy.foo_redefined
           (mkEntry 1%positive 1%positive) Toy.foo_define
           toy_foo_redefined).
  - reflexivity.
  - reflexivity.
  - reflexivity.
Defined.

Lemma add_then_remove_define_witness :
  gsk_sl_compiler_remove_define (res_heap Toy.bar_added)
    (res_compiler Toy.bar_added) "BAR"
  = gsk_sl_compiler_remove_define Toy.foo_heap Toy.foo_compiler "BAR".
Proof.
  apply (add_then_remove_define 10 Toy.foo_heap Toy.foo_compiler "BAR"
           (Some "b") Toy.bar_added toy_table_ok_foo toy_bar_added).
  reflexivity.
Defined.

Lemma dispose_keeps_copies_witness :
  tables_ok (gsk_sl_compiler_dispose Toy.foo_copy.1 Toy.foo_compiler)
    [Toy.foo_copy.2]
  ∧ ∀ t2 k, t2 ∈ [Toy.foo_copy.2] →
      observe (gsk_sl_compiler_dispose Toy.foo_copy.1 Toy.foo_compiler) t2 k
      = observe Toy.foo_copy.1 t2 k.
Proof.
  exact (dispose_keeps_copies Toy.foo_copy.1 Toy.foo_compiler
           [Toy.foo_copy.2] toy_tables_ok_foo_copy).
Defined.

Lemma copy_then_destroy_witness :
  g_hash_table_destroy Toy.foo_copy.1 Toy.foo_copy.2 = Toy.foo_heap.
Proof.
  exact (copy_then_destroy Toy.foo_heap Toy.foo_compiler []
           toy_tables_ok_foo).
Defined.

Lemma iteration_order_is_immaterial_witness :
  copy_defines_from Toy.foo_bar_heap
    (reverse (map_to_list (defines Toy.foo_bar_compiler)))
  = gsk_sl_compiler_copy_defines Toy.foo_bar_heap
      (mkCompiler (defines Toy.foo_bar_compiler))
  ∧ destroy_from Toy.foo_bar_heap
      (reverse (map_to_list (defines Toy.foo_bar_compiler)))
    = g_hash_table_destroy Toy.foo_bar_heap (defines Toy.foo_bar_compiler).
Proof.
  apply (iteration_order_is_immaterial Toy.foo_bar_heap
           (defines Toy.foo_bar_compiler)).
  apply reverse_Permutation.
Defined.

Lemma copy_defines_twice_witness :
  Toy.foo_copy_again.2 = Toy.foo_copy.2
  ∧ Toy.foo_copy.2 = defines Toy.foo_compiler
  ∧ (∀ k e, defines Toy.foo_compiler !! k = Some e →
       ∃ d, Toy.foo_heap !! entry_value e = Some d
            ∧ Toy.foo_copy_again.1 !! entry_value e
              = Some (with_ref_count d (ref_count d + 2)))
  ∧ tables_ok Toy.foo_copy_again.1
      [Toy.foo_copy_again.2; Toy.foo_copy.2; defines Toy.foo_compiler].
Proof.
  exact (copy_defines_twice Toy.foo_heap Toy.foo_compiler []
           toy_tables_ok_foo).
Defined.

Lemma compiler_releases_all_defines_witness :
  (∀ a d, Toy.bar_heap !! a = Some d →
     ref_count d = 1
     ∧ defines Toy.bar_compiler !! define_name d = Some (mkEntry a a))
  ∧ (∀ k e, defines Toy.bar_compiler !! k = Some e →
       ∃ d, Toy.bar_heap !! entry_value e = Some d ∧ define_name d = k)
  ∧ gsk_sl_compiler_dispose Toy.bar_heap Toy.bar_compiler = ∅.
Proof.
  apply (compiler_releases_all_defines Toy.session).
  reflexivity.
Defined.
